(** * Verifiable Map server (Trillian): index validation, revision checks,
      read and write orchestration, and the load generator's entrypoint choice.

    The development follows the map RPC server (package [server]) and
    [testonly/hammer/hammer.go].  Collaborators that the server only reaches
    through interfaces (admin storage, map storage, signer, sparse Merkle
    reader and writer, clock, metrics) are a record of state transformers
    over an abstract collaborator state; every call the server makes to them
    is recorded, with its arguments, in a trace. *)

From Stdlib Require Import ZArith Lia List String Ascii.
From Stdlib.Strings Require Import Byte.
From stdpp Require Import base option list gmap strings sorting pretty.

Set Warnings "-register-all".
Local Open Scope Z_scope.

(** ** Go values *)

Module Go.

(** [[]byte]; the nil slice is the empty list. *)
Abbreviation bytes := (list Byte.byte).

(** [len(b)] as a Go [int]. *)
Definition len {A} (l : list A) : Z := Z.of_nat (length l).

(** [string(b)] for a byte slice, used wherever a slice is a map key. *)
Definition string_of_bytes (b : bytes) : string := string_of_list_byte b.

(** [make([]byte, n)]. *)
Definition make_bytes (n : Z) : bytes := replicate (Z.to_nat n) Byte.x00.

(** Conversions between [int64] and [uint64]: same 64 bits. *)
Definition to_uint64 (z : Z) : Z := z mod 2 ^ 64.
Definition to_int64 (z : Z) : Z := (z + 2 ^ 63) mod 2 ^ 64 - 2 ^ 63.

(** gRPC status codes ([google.golang.org/grpc/codes]). *)
Inductive Code :=
| OK | Canceled | Unknown | InvalidArgument | DeadlineExceeded | NotFound
| AlreadyExists | PermissionDenied | ResourceExhausted | FailedPrecondition
| Aborted | OutOfRange | Unimplemented | Internal | Unavailable | DataLoss
| Unauthenticated.

(** An argument of a format string. *)
Inductive fmtarg (E : Type) :=
| ArgInt (z : Z)
| ArgErr (e : E).
Arguments ArgInt {E} z.
Arguments ArgErr {E} e.

(** Go [error] values: [status.Errorf(code, format, args...)],
    [fmt.Errorf(format, args...)], and the storage sentinel
    [storage.ErrTreeNeedsInit].  Format strings are kept with their
    arguments instead of being rendered. *)
Inductive error :=
| StatusErrorf (c : Code) (format : string) (args : list (fmtarg error))
| FmtErrorf (format : string) (args : list (fmtarg error))
| ErrTreeNeedsInit.

(** [status.Code(err)]: the code of a status error, [Unknown] for any
    other non-nil error, [OK] for nil. *)
Definition status_Code (err : option error) : Code :=
  match err with
  | None => OK
  | Some (StatusErrorf c _ _) => c
  | Some _ => Unknown
  end.

(** [err != storage.ErrTreeNeedsInit] for a non-nil [err]. *)
Definition is_ErrTreeNeedsInit (e : error) : bool :=
  match e with ErrTreeNeedsInit => true | _ => false end.

End Go.

Import Go.

(** ** Index validation *)

Module Validate.

(** The body of the [for i := 0; i < n; i++] loop of [validateIndices],
    iterated [fuel] times from position [i] with the map [seenIndices]. *)
Fixpoint validateIndices_loop (indexSize : Z) (indices : Z -> bytes)
         (fuel : nat) (i : Z) (seenIndices : gmap string bool) : option error :=
  match fuel with
  | O => None
  | S fuel' =>
      let index := indices i in
      let got := len index in
      let want := indexSize in
      if negb (got =? want) then
        Some (StatusErrorf InvalidArgument
                "index at position %d has wrong length: got=%d,want=%d"
                [ArgInt i; ArgInt got; ArgInt want])
      else if default false (seenIndices !! string_of_bytes index) then
        Some (StatusErrorf InvalidArgument
                "duplicate index detected at position %d" [ArgInt i])
      else
        validateIndices_loop indexSize indices fuel' (i + 1)
          (<[string_of_bytes index := true]> seenIndices)
  end.

(** [validateIndices(indexSize, n, indices)]; [None] is the nil error. *)
Definition validateIndices (indexSize n : Z) (indices : Z -> bytes) : option error :=
  validateIndices_loop indexSize indices (Z.to_nat n) 0 ∅.

(** The accessor closure the callers pass: [func(i int) []byte { return l[i] }]. *)
Definition index_at (l : list bytes) (i : Z) : bytes := l !!! Z.to_nat i.

(** The call as every RPC makes it:
    [validateIndices(hasher.Size(), len(l), func(i) { return l[i] })]. *)
Definition validate_request (hashSize : Z) (l : list bytes) : option error :=
  validateIndices hashSize (len l) (index_at l).

End Validate.

Import Validate.

(** What validation is expected to report. *)

Module ValidateSpec.

(** Position [i] of [l] breaks a rule: its index has the wrong length or
    repeats an earlier index. *)
Definition offending (size : Z) (l : list bytes) (i : nat) : Prop :=
  exists x, l !! i = Some x /\ (len x <> size \/ x ∈ take i l).

(** [i] is the first such position. *)
Definition first_offending (size : Z) (l : list bytes) (i : nat) : Prop :=
  offending size l i /\ forall j, (j < i)%nat -> ~ offending size l j.

(** The error [validateIndices] builds for the index [x] at position [i]. *)
Definition error_at (size : Z) (i : nat) (x : bytes) : error :=
  if len x =? size then
    StatusErrorf InvalidArgument "duplicate index detected at position %d"
      [ArgInt (Z.of_nat i)]
  else
    StatusErrorf InvalidArgument
      "index at position %d has wrong length: got=%d,want=%d"
      [ArgInt (Z.of_nat i); ArgInt (len x); ArgInt size].

(** The position an error of validation names. *)
Definition named_position (e : error) : option Z :=
  match e with
  | StatusErrorf _ _ (ArgInt i :: _) => Some i
  | _ => None
  end.

(** [seen] holds exactly the indices before position [i]. *)
Definition seen_upto (l : list bytes) (i : nat) (seen : gmap string bool) : Prop :=
  forall x : bytes,
    default false (seen !! string_of_bytes x) = true <-> x ∈ take i l.

End ValidateSpec.

(** ** The map server *)

Module Server.

(** *** Messages and stored data *)

(** [trillian.Tree]: the fields the server reads. *)
Record Tree := { TreeId : Z; HashStrategy : Z }.

(** [optsMapInit], [optsMapRead], [optsMapWrite]. *)
Inductive GetOpts := optsMapInit | optsMapRead | optsMapWrite.

Record MapLeaf := {
  Index : bytes;
  LeafHash : bytes;
  LeafValue : bytes;
  ExtraData : bytes
}.

(** [&trillian.MapLeaf{Index: index}]. *)
Definition empty_leaf (index : bytes) : MapLeaf :=
  {| Index := index; LeafHash := []; LeafValue := []; ExtraData := [] |}.

(** [trillian.SignedMapRoot]; [MapRoot] is tested against nil in [InitMap]. *)
Record SignedMapRoot := { MapRoot : option bytes; Signature : bytes }.

(** [types.MapRootV1]; [TimestampNanos] and [Revision] are [uint64]. *)
Record MapRootV1 := {
  RootHash : bytes;
  TimestampNanos : Z;
  Revision : Z;
  Metadata : bytes
}.

Record HashKeyValue := { HashedKey : bytes; HashedValue : bytes }.

(** [Leaf] is a pointer: [None] is nil. *)
Record MapLeafInclusion := { Leaf : option MapLeaf; Inclusion : list bytes }.

Record GetMapLeavesResponse := {
  rsp_MapLeafInclusion : list MapLeafInclusion;
  rsp_MapRoot : SignedMapRoot
}.

(** [GetMapLeavesRequest] and [GetMapLeavesByRevisionRequest]. *)
Record GetMapLeavesRequest := { gl_MapId : Z; gl_Index : list bytes }.
Record GetMapLeavesByRevisionRequest := {
  glr_MapId : Z; glr_Index : list bytes; glr_Revision : Z
}.
Record GetSignedMapRootByRevisionRequest := { gsr_MapId : Z; gsr_Revision : Z }.
Record SetMapLeavesRequest := {
  sl_MapId : Z; sl_Leaves : list MapLeaf; sl_Metadata : bytes; sl_Revision : Z
}.
Record InitMapRequest := { im_MapId : Z }.

(** [hashers.MapHasher]. *)
Record MapHasher := {
  Size : Z;
  BitLen : Z;
  HashLeaf : Z -> bytes -> bytes -> bytes;
  HashEmpty : Z -> bytes -> Z -> bytes
}.

Record TrillianMapServerOptions := {
  UseSingleTransaction : bool;
  UseLargePreload : bool
}.

(** Handles of objects that live in the collaborators' state. *)
Definition TX := Z.
Definition Writer := Z.
Definition SignerHandle := Z.

Inductive TXRunner :=
| singleTXRunner (tx : TX)
| multiTXRunner (tree : Tree).

Definition mostRecentRevision : Z := -1.

(** *** Calls to collaborators *)

(** How a Go function ends: with its value and a nil error, with a
    non-nil error, or in a run-time panic. *)
Inductive outcome (A : Type) :=
| Ret (a : A)
| Fail (e : error)
| Panic (msg : string).
Arguments Ret {A} a.
Arguments Fail {A} e.
Arguments Panic {A} msg.


Section Collab.

(** [S]: state of the collaborators.  [NodeID]: [tree.NodeID], declared
    outside this package. *)
Context {S NodeID : Type}.

Inductive Event :=
| EvGetTree (treeID : Z) (opts : GetOpts)
| EvSnapshotForTree (tree : Tree)
| EvBegin (tree : Tree)
| EvCommit (tx : TX)
| EvClose (tx : TX)
| EvLatestSignedMapRoot (tx : TX)
| EvGetSignedMapRoot (tx : TX) (rev : Z)
| EvGet (tx : TX) (rev : Z) (indices : list bytes)
| EvBatchInclusionProof (tx : TX) (readerRev rev : Z) (indices : list bytes)
| EvWriteRevision (tx : TX)
| EvReadRevision (tx : TX)
| EvSet (tx : TX) (index : bytes) (leaf : MapLeaf)
| EvGetMerkleNodes (tx : TX) (rev : Z) (nids : list NodeID)
| EvStoreSignedMapRoot (tx : TX) (root : SignedMapRoot)
| EvNewSparseMerkleTreeWriter (treeID rev : Z) (runner : TXRunner)
| EvWriterSetLeaves (w : Writer) (hkv : list HashKeyValue)
| EvCalculateRoot (w : Writer)
| EvNow
| EvSigner (tree : Tree)
| EvSignMapRoot (s : SignerHandle) (smr : MapRootV1)
| EvCounterAdd (name : string) (n : Z).

(** The interfaces the server is given through [extension.Registry] and
    the packages [trees], [hashers], [merkle], [types], [storage/tree]
    and [time].  A call returning [(v, err)] whose value is only read
    when [err] is nil returns a sum; the two calls whose value and error
    are both inspected return both. *)
Record Collaborators := {
  GetTree : Z -> GetOpts -> S -> (Tree + error) * S;
  NewMapHasher : Z -> MapHasher + error;
  SnapshotForTree : Tree -> S -> (option TX * option error) * S;
  Begin : Tree -> S -> (TX + error) * S;
  Commit : TX -> S -> option error * S;
  Close : TX -> S -> option error * S;
  LatestSignedMapRoot : TX -> S -> (option SignedMapRoot * option error) * S;
  GetSignedMapRoot : TX -> Z -> S -> (SignedMapRoot + error) * S;
  Get : TX -> Z -> list bytes -> S -> (list MapLeaf + error) * S;
  BatchInclusionProof :
    MapHasher -> TX -> Z -> Z -> list bytes -> S
    -> (gmap string (list bytes) + error) * S;
  WriteRevision : TX -> S -> (Z + error) * S;
  ReadRevision : TX -> S -> (Z + error) * S;
  Set_ : TX -> bytes -> MapLeaf -> S -> option error * S;
  GetMerkleNodes : TX -> Z -> list NodeID -> S -> option error * S;
  StoreSignedMapRoot : TX -> SignedMapRoot -> S -> option error * S;
  CounterAdd : string -> Z -> S -> unit * S;
  NewSparseMerkleTreeWriter :
    Z -> Z -> MapHasher -> TXRunner -> S -> (Writer + error) * S;
  WriterSetLeaves : Writer -> list HashKeyValue -> S -> option error * S;
  CalculateRoot : Writer -> S -> (bytes + error) * S;
  Now : S -> Z * S;
  Signer : Tree -> S -> (SignerHandle + error) * S;
  SignMapRoot : SignerHandle -> MapRootV1 -> S -> (SignedMapRoot + error) * S;
  UnmarshalBinary : bytes -> MapRootV1 + error;
  NewNodeIDFromHash : bytes -> NodeID;
  Siblings : NodeID -> list NodeID;
  AsKey : NodeID -> string
}.

(** *** The monad of server code *)

Record World := { store : S; trace : list Event }.

Definition M (A : Type) : Type := World -> outcome A * World.

Definition ret {A} (a : A) : M A := fun w => (Ret a, w).
Definition fail {A} (e : error) : M A := fun w => (Fail e, w).
Definition panic {A} (msg : string) : M A := fun w => (Panic msg, w).

Definition bind {A B} (c : M A) (k : A -> M B) : M B :=
  fun w =>
    match c w with
    | (Ret a, w') => k a w'
    | (Fail e, w') => (Fail e, w')
    | (Panic msg, w') => (Panic msg, w')
    end.

(** [if err != nil { return nil, h(err) }] around a call. *)
Definition wrap {A} (c : M A) (h : error -> error) : M A :=
  fun w =>
    match c w with
    | (Fail e, w') => (Fail (h e), w')
    | r => r
    end.

(** [defer cleanup] followed by [body]: the cleanup runs on every way
    out of [body]; what it returns is dropped. *)
Definition defer {A B} (cleanup : M B) (body : M A) : M A :=
  fun w =>
    let (r, w') := body w in
    let (_, w'') := cleanup w' in
    (r, w'').

(** A collaborator call: the event is appended to the trace and the
    transformer is applied to the store. *)
Definition call {R} (ev : Event) (op : S -> R * S) : M R :=
  fun w =>
    let (r, s') := op (store w) in
    (Ret r, {| store := s'; trace := trace w ++ [ev] |}).

Definition of_sum {A} (r : A + error) : M A :=
  match r with inl a => ret a | inr e => fail e end.

Definition of_err (r : option error) : M unit :=
  match r with None => ret tt | Some e => fail e end.

End Collab.

Arguments Event : clear implicits.
Arguments Collaborators : clear implicits.
Arguments World : clear implicits.
Arguments M : clear implicits.

Notation "'let*' x ':=' c 'in' k" := (bind c (fun x => k))
  (at level 10, x pattern, c at level 200, k at level 200).

(** The message of the run-time panic on a nil pointer or nil interface. *)
Definition nil_dereference : string :=
  "invalid memory address or nil pointer dereference".

(** *** The order of concurrent steps *)

(** [getLeavesByRevision] starts two goroutines on the same transaction.
    [leaves_call_first]: the leaf fetch reaches the transaction before the
    proof fetch.  [leaves_err_first]: when both fail, the leaf error is the
    first one in [errCh]. *)
Record ReadSchedule := { leaves_call_first : bool; leaves_err_first : bool }.

(** The sends of several producers, each in its own order, as they arrive
    on one channel. *)
Inductive interleaving {A : Type} : list (list A) -> list A -> Prop :=
| interleaving_done (ls : list (list A)) :
    Forall (fun l => l = []) ls -> interleaving ls []
| interleaving_send (ls1 : list (list A)) (x : A) (xs : list A)
                    (ls2 : list (list A)) (c : list A) :
    interleaving (ls1 ++ xs :: ls2) c ->
    interleaving (ls1 ++ (x :: xs) :: ls2) (x :: c).

(** An execution in which two producers take turns. *)
Fixpoint alternate {A} (l k : list A) : list A :=
  match l, k with
  | x :: l', y :: k' => x :: y :: alternate l' k'
  | [], _ => k
  | _, [] => l
  end.

Section Impl.

Context {S NodeID : Type}.
Variable co : Collaborators S NodeID.
Variable opts : TrillianMapServerOptions.

Abbreviation M := (M S NodeID).

Definition call_sum {A} (ev : Event NodeID) (op : S -> (A + error) * S) : M A :=
  let* r := call ev op in of_sum r.

Definition call_err (ev : Event NodeID) (op : S -> option error * S) : M unit :=
  let* r := call ev op in of_err r.

Definition getTreeAndHasher (treeID : Z) (o : GetOpts) : M (Tree * MapHasher) :=
  let* tree := call_sum (EvGetTree treeID o) (GetTree co treeID o) in
  let* th := of_sum (NewMapHasher co (HashStrategy tree)) in
  ret (tree, th).

Definition getTreeAndContext (treeID : Z) (o : GetOpts) : M Tree :=
  let* tree := call_sum (EvGetTree treeID o) (GetTree co treeID o) in
  ret tree.

(** The error of [Close] is logged and dropped. *)
Definition closeAndLog (tx : TX) : M unit :=
  let* _ := call (EvClose tx) (Close co tx) in
  ret tt.

Definition snapshotForTree (tree : Tree) : M (option TX * option error) :=
  let* r := call (EvSnapshotForTree tree) (SnapshotForTree co tree) in
  match r with
  | (Some tx, Some err) => let* _ := closeAndLog tx in ret (Some tx, Some err)
  | _ => ret r
  end.

(** Modelled from the spec: [MapStorage.ReadWriteTransaction] is
    implemented by the storage driver, outside this package.  The
    transaction is acquired on entry and released on all exit paths; [f]
    runs inside it; it is committed only when [f] returns no error, and
    the error of [f] or of the commit is returned.  The value of [f]
    stands for the variable the closure assigns. *)
Definition ReadWriteTransaction {A} (tree : Tree) (f : TX -> M A) : M A :=
  let* tx := call_sum (EvBegin tree) (Begin co tree) in
  defer (closeAndLog tx)
    (let* a := f tx in
     let* _ := call_err (EvCommit tx) (Commit co tx) in
     ret a).

(** **** Reads *)

Definition strip_LeafHash (l : MapLeaf) : MapLeaf :=
  {| Index := Index l; LeafHash := []; LeafValue := LeafValue l;
     ExtraData := ExtraData l |}.

Definition GetLeavesByRevisionNoProof (req : GetMapLeavesByRevisionRequest)
  : M (list MapLeaf) :=
  if glr_Revision req <? 0 then
    fail (FmtErrorf "map revision %d must be >= 0" [ArgInt (glr_Revision req)])
  else
    let* (tree, hasher) :=
      wrap (getTreeAndHasher (glr_MapId req) optsMapRead)
           (fun err => FmtErrorf "could not get map %v: %v"
                         [ArgInt (glr_MapId req); ArgErr err]) in
    let* _ := of_err (validate_request (Size hasher) (glr_Index req)) in
    let* r := snapshotForTree tree in
    match r with
    | (_, Some err) =>
        fail (FmtErrorf "could not create database snapshot: %v" [ArgErr err])
    | (None, None) => panic nil_dereference
    | (Some tx, None) =>
        defer (closeAndLog tx)
          (let* leaves := call_sum (EvGet tx (glr_Revision req) (glr_Index req))
                              (Get co tx (glr_Revision req) (glr_Index req)) in
           ret (map strip_LeafHash leaves))
    end.

(** The first goroutine's map: the fetched leaves by index, then an
    empty leaf for every requested index that is still missing. *)
Definition index_leaves (leaves : list MapLeaf) : gmap string MapLeaf :=
  foldl (fun m l => <[string_of_bytes (Index l) := l]> m) ∅ leaves.

Definition add_empty_leaves (indices : list bytes) (m : gmap string MapLeaf)
  : gmap string MapLeaf :=
  foldl (fun m index =>
           match m !! string_of_bytes index with
           | Some _ => m
           | None => <[string_of_bytes index := empty_leaf index]> m
           end) m indices.

(** The first goroutine: its result is the map, or the error it sends. *)
Definition fetch_leaves (tx : TX) (revision : Z) (indices : list bytes)
  : M (gmap string MapLeaf + error) :=
  let* r := call (EvGet tx revision indices) (Get co tx revision indices) in
  match r with
  | inr err => ret (inr (FmtErrorf "could not fetch leaves: %v" [ArgErr err]))
  | inl leaves => ret (inl (add_empty_leaves indices (index_leaves leaves)))
  end.

(** The second goroutine. *)
Definition fetch_proofs (hasher : MapHasher) (tx : TX) (revision : Z)
           (indices : list bytes) : M (gmap string (list bytes) + error) :=
  let* r := call (EvBatchInclusionProof tx revision revision indices)
            (BatchInclusionProof co hasher tx revision revision indices) in
  match r with
  | inr err =>
      ret (inr (FmtErrorf "could not fetch inclusion proofs: %v" [ArgErr err]))
  | inl proofs => ret (inl proofs)
  end.

(** What [select] finds in [errCh] after [wg.Wait()]. *)
Definition first_error {A B} (sched : ReadSchedule)
           (lr : A + error) (pr : B + error) : option error :=
  match lr, pr with
  | inl _, inl _ => None
  | inr e, inl _ => Some e
  | inl _, inr e => Some e
  | inr e1, inr e2 => Some (if leaves_err_first sched then e1 else e2)
  end.

Definition getLeavesByRevision (sched : ReadSchedule) (mapID : Z)
           (indices : list bytes) (revision : Z) : M GetMapLeavesResponse :=
  let* (tree, hasher) :=
    wrap (getTreeAndHasher mapID optsMapRead)
         (fun err => FmtErrorf "could not get map %v: %v" [ArgInt mapID; ArgErr err]) in
  let* _ := of_err (validate_request (Size hasher) indices) in
  let* _ := call (EvCounterAdd "get_leaves" (len indices))
            (CounterAdd co "get_leaves" (len indices)) in
  let* r := snapshotForTree tree in
  match r with
  | (_, Some err) =>
      fail (FmtErrorf "could not create database snapshot: %v" [ArgErr err])
  | (None, None) => panic nil_dereference
  | (Some tx, None) =>
      defer (closeAndLog tx)
        (let* root :=
           (if revision <? 0 then
              let* r := call (EvLatestSignedMapRoot tx) (LatestSignedMapRoot co tx) in
              match r with
              | (_, Some err) =>
                  fail (FmtErrorf "could not fetch the latest SignedMapRoot: %v"
                          [ArgErr err])
              | (r, None) => ret r
              end
            else
              let* r := wrap (call_sum (EvGetSignedMapRoot tx revision)
                                  (GetSignedMapRoot co tx revision))
                        (fun err => FmtErrorf "could not fetch SignedMapRoot %v: %v"
                                      [ArgInt revision; ArgErr err]) in
              ret (Some r)) in
         match root with
         | None => panic nil_dereference
         | Some root =>
             let* mapRoot := of_sum (UnmarshalBinary co (default [] (MapRoot root))) in
             let revision := to_int64 (Revision mapRoot) in
             let* (lr, pr) :=
               (if leaves_call_first sched then
                  let* lr := fetch_leaves tx revision indices in
                  let* pr := fetch_proofs hasher tx revision indices in
                  ret (lr, pr)
                else
                  let* pr := fetch_proofs hasher tx revision indices in
                  let* lr := fetch_leaves tx revision indices in
                  ret (lr, pr)) in
             match first_error sched lr pr with
             | Some e => fail e
             | None =>
                 let leavesByIndex :=
                   match lr with inl m => m | inr _ => ∅ end in
                 let proofs :=
                   match pr with inl m => m | inr _ => ∅ end in
                 let* _ := wrap (call_err (EvCommit tx) (Commit co tx))
                           (fun err => FmtErrorf "could not commit db transaction: %v"
                                         [ArgErr err]) in
                 ret {| rsp_MapLeafInclusion :=
                          map (fun index =>
                                 {| Leaf := leavesByIndex !! string_of_bytes index;
                                    Inclusion :=
                                      default [] (proofs !! string_of_bytes index) |})
                              indices;
                        rsp_MapRoot := root |}
             end
         end)
  end.

Definition GetLeaves (sched : ReadSchedule) (req : GetMapLeavesRequest)
  : M GetMapLeavesResponse :=
  getLeavesByRevision sched (gl_MapId req) (gl_Index req) mostRecentRevision.

Definition GetLeavesByRevision (sched : ReadSchedule)
           (req : GetMapLeavesByRevisionRequest) : M GetMapLeavesResponse :=
  if glr_Revision req <? 0 then
    fail (FmtErrorf "map revision %d must be >= 0" [ArgInt (glr_Revision req)])
  else
    getLeavesByRevision sched (glr_MapId req) (glr_Index req) (glr_Revision req).

Definition GetSignedMapRootByRevision (req : GetSignedMapRootByRevisionRequest)
  : M SignedMapRoot :=
  if gsr_Revision req <? 0 then
    fail (FmtErrorf "map revision %d must be >= 0" [ArgInt (gsr_Revision req)])
  else
    let* tree := getTreeAndContext (gsr_MapId req) optsMapRead in
    let* r := snapshotForTree tree in
    match r with
    | (_, Some err) => fail err
    | (None, None) => panic nil_dereference
    | (Some tx, None) =>
        defer (closeAndLog tx)
          (let* r := call_sum (EvGetSignedMapRoot tx (gsr_Revision req))
                         (GetSignedMapRoot co tx (gsr_Revision req)) in
           let* _ := call_err (EvCommit tx) (Commit co tx) in
           ret r)
    end.

(** **** Writes *)

(** [smrTs] is [smrTs.UnixNano()], an [int64]. *)
Definition makeSignedMapRoot (tree : Tree) (smrTs : Z) (rootHash : bytes)
           (mapID revision : Z) (meta : bytes) : M SignedMapRoot :=
  let smr := {| RootHash := rootHash;
                TimestampNanos := to_uint64 smrTs;
                Revision := to_uint64 revision;
                Metadata := meta |} in
  let* signer :=
    wrap (call_sum (EvSigner tree) (Signer co tree))
         (fun err => FmtErrorf "trees.Signer(): %v" [ArgErr err]) in
  let* root :=
    wrap (call_sum (EvSignMapRoot signer smr) (SignMapRoot co signer smr))
         (fun err => FmtErrorf "SignMapRoot(): %v" [ArgErr err]) in
  ret root.

Definition getWriteRevision (tx : TX) (assertRev : Z) : M Z :=
  let* writeRev := call_sum (EvWriteRevision tx) (WriteRevision co tx) in
  if negb (assertRev =? 0) && negb (writeRev =? assertRev) then
    fail (StatusErrorf FailedPrecondition "can't write to revision %v"
            [ArgInt assertRev])
  else ret writeRev.

Fixpoint writeLeaves (tx : TX) (leaves : list MapLeaf) : M unit :=
  match leaves with
  | [] => ret tt
  | l :: leaves' =>
      let* _ := call_err (EvSet tx (Index l) l) (Set_ co tx (Index l) l) in
      writeLeaves tx leaves'
  end.

Record nodeAndID := { id : string; node : NodeID }.

(** One producer goroutine: the sends it makes for the key [k]. *)
Definition producer (k : bytes) : list nodeAndID :=
  map (fun sib => {| id := AsKey co sib; node := sib |})
      (Siblings co (NewNodeIDFromHash co k)).

Definition producers (hkv : list HashKeyValue) : list (list nodeAndID) :=
  map (fun i => producer (HashedKey i)) hkv.

(** The consumer loop [for nai := range c]. *)
Fixpoint consume (c : list nodeAndID) (nidSet : gmap string bool)
         (nids : list NodeID) : list NodeID :=
  match c with
  | [] => nids
  | nai :: c' =>
      match nidSet !! id nai with
      | Some _ => consume c' nidSet nids
      | None => consume c' (<[id nai := true]> nidSet) (nids ++ [node nai])
      end
  end.

(** [calcAllSiblingsParallel] on one execution: [c] is what the channel
    delivers, an [interleaving] of [producers hkv]. *)
Definition calcAllSiblingsParallel (treeDepth : Z) (hkv : list HashKeyValue)
           (c : list nodeAndID) : list NodeID :=
  consume c ∅ [].

(** The execution in which the producers run one after the other. *)
Definition sequential_channel (hkv : list HashKeyValue) : list nodeAndID :=
  concat (producers hkv).

Definition doPreload (tx : TX) (treeDepth : Z) (hkv : list HashKeyValue)
           (c : list nodeAndID) : M unit :=
  let* readRev := call_sum (EvReadRevision tx) (ReadRevision co tx) in
  let nids := calcAllSiblingsParallel treeDepth hkv c in
  call_err (EvGetMerkleNodes tx readRev nids) (GetMerkleNodes co tx readRev nids).

Definition newTXRunner (tree : Tree) (tx : TX) : TXRunner :=
  if UseSingleTransaction opts then singleTXRunner tx else multiTXRunner tree.

Definition updateTree (tree : Tree) (hasher : MapHasher) (tx : TX)
           (hkv : list HashKeyValue) (metadata : bytes) (rev : Z)
           (c : list nodeAndID) : M SignedMapRoot :=
  let* _ :=
    (if UseSingleTransaction opts && UseLargePreload opts then
       doPreload tx (BitLen hasher) hkv c
     else ret tt) in
  let* smtWriter :=
    call_sum (EvNewSparseMerkleTreeWriter (TreeId tree) rev (newTXRunner tree tx))
             (NewSparseMerkleTreeWriter co (TreeId tree) rev hasher
                (newTXRunner tree tx)) in
  let* _ := call_err (EvWriterSetLeaves smtWriter hkv)
                     (WriterSetLeaves co smtWriter hkv) in
  let* rootHash :=
    wrap (call_sum (EvCalculateRoot smtWriter) (CalculateRoot co smtWriter))
         (fun err => FmtErrorf "CalculateRoot(): %v" [ArgErr err]) in
  let* now := call EvNow (Now co) in
  let* newRoot :=
    wrap (makeSignedMapRoot tree now rootHash (TreeId tree) rev metadata)
         (fun err => FmtErrorf "makeSignedMapRoot(): %v" [ArgErr err]) in
  let* _ := call_err (EvStoreSignedMapRoot tx newRoot)
                     (StoreSignedMapRoot co tx newRoot) in
  ret newRoot.

(** [l.LeafHash = hasher.HashLeaf(tree.TreeId, l.Index, l.LeafValue)]. *)
Definition set_LeafHash (hasher : MapHasher) (tree : Tree) (l : MapLeaf) : MapLeaf :=
  {| Index := Index l;
     LeafHash := HashLeaf hasher (TreeId tree) (Index l) (LeafValue l);
     LeafValue := LeafValue l;
     ExtraData := ExtraData l |}.

(** The accessor closure of [SetLeaves]:
    [func(i int) []byte { return req.Leaves[i].Index }]. *)
Definition leaf_index_at (leaves : list MapLeaf) (i : Z) : bytes :=
  match leaves !! Z.to_nat i with
  | Some l => Index l
  | None => []
  end.

(** The closure [SetLeaves] runs in its transaction. *)
Definition SetLeaves_tx (req : SetMapLeavesRequest) (tree : Tree)
           (hasher : MapHasher) (leaves : list MapLeaf)
           (hkv : list HashKeyValue) (c : list nodeAndID) (tx : TX)
  : M SignedMapRoot :=
  let* writeRev := getWriteRevision tx (sl_Revision req) in
  let* _ := writeLeaves tx leaves in
  updateTree tree hasher tx hkv (sl_Metadata req) writeRev c.

Definition SetLeaves (req : SetMapLeavesRequest) (c : list nodeAndID)
  : M SignedMapRoot :=
  let mapID := sl_MapId req in
  let* _ := call (EvCounterAdd "set_leaves" (len (sl_Leaves req)))
                 (CounterAdd co "set_leaves" (len (sl_Leaves req))) in
  let* (tree, hasher) := getTreeAndHasher mapID optsMapWrite in
  let* _ := of_err (validateIndices (Size hasher) (len (sl_Leaves req))
                      (leaf_index_at (sl_Leaves req))) in
  let leaves := map (set_LeafHash hasher tree) (sl_Leaves req) in
  let hkv := map (fun l => {| HashedKey := Index l; HashedValue := LeafHash l |})
                 leaves in
  let* newRoot :=
    ReadWriteTransaction tree (SetLeaves_tx req tree hasher leaves hkv c) in
  ret newRoot.

(** [latestRoot.GetMapRoot()], nil for a nil root. *)
Definition GetMapRoot (root : option SignedMapRoot) : option bytes :=
  match root with
  | Some r => MapRoot r
  | None => None
  end.

(** The closure [InitMap] runs in its transaction. *)
Definition InitMap_tx (mapID : Z) (tree : Tree) (hasher : MapHasher) (tx : TX)
  : M SignedMapRoot :=
  let* r := call (EvLatestSignedMapRoot tx) (LatestSignedMapRoot co tx) in
  let (latestRoot, err) := r : option SignedMapRoot * option error in
  match (match err with
         | Some e => if is_ErrTreeNeedsInit e then None else Some e
         | None => None
         end) with
  | Some e =>
      fail (StatusErrorf FailedPrecondition "LatestSignedMapRoot(): %v" [ArgErr e])
  | None =>
      match GetMapRoot latestRoot with
      | Some _ => fail (StatusErrorf AlreadyExists "map is already initialised" [])
      | None =>
          let rootHash :=
            HashEmpty hasher mapID (make_bytes (Size hasher)) (BitLen hasher) in
          let* now := call EvNow (Now co) in
          let* rev0Root :=
            wrap (makeSignedMapRoot tree now rootHash mapID 0 [])
                 (fun err => FmtErrorf "makeSignedMapRoot(): %v" [ArgErr err]) in
          let* _ := call_err (EvStoreSignedMapRoot tx rev0Root)
                             (StoreSignedMapRoot co tx rev0Root) in
          ret rev0Root
      end
  end.

Definition InitMap (req : InitMapRequest) : M SignedMapRoot :=
  let mapID := im_MapId req in
  let* (tree, hasher) :=
    wrap (getTreeAndHasher mapID optsMapInit)
         (fun err => StatusErrorf FailedPrecondition "getTreeAndHasher(): %v"
                       [ArgErr err]) in
  let* rev0Root := ReadWriteTransaction tree (InitMap_tx mapID tree hasher) in
  ret rev0Root.

End Impl.

End Server.

(** ** Vocabulary of the server's properties *)

Module ServerSpec.

Import Server.

(** The two RPCs that read leaves with proofs. *)
Inductive read_call :=
| CallGetLeaves (req : GetMapLeavesRequest)
| CallGetLeavesByRevision (req : GetMapLeavesByRevisionRequest).

Definition read_map (c : read_call) : Z :=
  match c with
  | CallGetLeaves req => gl_MapId req
  | CallGetLeavesByRevision req => glr_MapId req
  end.

Definition read_indices (c : read_call) : list bytes :=
  match c with
  | CallGetLeaves req => gl_Index req
  | CallGetLeavesByRevision req => glr_Index req
  end.

(** The revision the RPC asks [getLeavesByRevision] for. *)
Definition read_revision (c : read_call) : Z :=
  match c with
  | CallGetLeaves _ => mostRecentRevision
  | CallGetLeavesByRevision req => glr_Revision req
  end.

Definition run_read {S NodeID : Type} (co : Collaborators S NodeID)
           (sched : ReadSchedule) (c : read_call) : M S NodeID GetMapLeavesResponse :=
  match c with
  | CallGetLeaves req => GetLeaves co sched req
  | CallGetLeavesByRevision req => GetLeavesByRevision co sched req
  end.

(** The call that fetches the target signed root. *)
Definition root_event {NodeID : Type} (tx : TX) (revision : Z) : Event NodeID :=
  if revision <? 0 then EvLatestSignedMapRoot tx else EvGetSignedMapRoot tx revision.

(** The two fetches at revision [r], in the order of the schedule. *)
Definition fetch_events {NodeID : Type} (sched : ReadSchedule) (tx : TX) (r : Z)
           (indices : list bytes) : list (Event NodeID) :=
  if leaves_call_first sched then
    [EvGet tx r indices; EvBatchInclusionProof tx r r indices]
  else
    [EvBatchInclusionProof tx r r indices; EvGet tx r indices].

(** The stored leaf [st] and the returned leaf [l] agree outside the hash. *)
Definition same_but_hash (l st : MapLeaf) : Prop :=
  Index l = Index st /\ LeafValue l = LeafValue st /\ ExtraData l = ExtraData st.

(** The calls only [doPreload] makes. *)
Definition is_preload_event {NodeID : Type} (ev : Event NodeID) : bool :=
  match ev with
  | EvReadRevision _ | EvGetMerkleNodes _ _ _ => true
  | _ => false
  end.

(** The events a computation adds to the trace of [w]. *)
Definition new_events {S NodeID A : Type} (m : M S NodeID A) (w : World S NodeID)
  : list (Event NodeID) :=
  drop (length (trace w)) (trace (snd (m w))).

(** Every sibling of every key of the batch. *)
Definition all_siblings {S NodeID : Type} (co : Collaborators S NodeID)
           (hkv : list HashKeyValue) : list NodeID :=
  concat (map (fun i => Siblings co (NewNodeIDFromHash co (HashedKey i))) hkv).

(** The root [InitMap] has signed. *)
Definition rev0_root (hasher : MapHasher) (mapID now : Z) : MapRootV1 :=
  {| RootHash := HashEmpty hasher mapID (make_bytes (Size hasher)) (BitLen hasher);
     TimestampNanos := to_uint64 now;
     Revision := 0;
     Metadata := [] |}.

End ServerSpec.

(** ** The load generator's choice of entrypoint *)

Module Hammer.

Definition MapEntrypointName := string.

Definition GetLeavesName : MapEntrypointName := "GetLeaves".
Definition GetLeavesRevName : MapEntrypointName := "GetLeavesRev".
Definition SetLeavesName : MapEntrypointName := "SetLeaves".
Definition GetSMRName : MapEntrypointName := "GetSMR".
Definition GetSMRRevName : MapEntrypointName := "GetSMRRev".

Definition mapEntrypoints : list MapEntrypointName :=
  [GetLeavesName; GetLeavesRevName; SetLeavesName; GetSMRName; GetSMRRevName].

(** [MapBias]; a Go [int] is 64 bits wide. *)
Record MapBias := {
  Bias : gmap string Z;
  total : Z;
  InvalidChance : gmap string Z
}.

(** [hb.Bias[ep]]: zero for a missing key. *)
Definition bias_of (hb : MapBias) (ep : MapEntrypointName) : Z :=
  default 0 (Bias hb !! ep).

(** [for _, ep := range mapEntrypoints { hb.total += hb.Bias[ep] }]. *)
Definition add_biases (hb : MapBias) (t : Z) (eps : list MapEntrypointName) : Z :=
  foldl (fun t ep => to_int64 (t + bias_of hb ep)) t eps.

(** How [choose] ends. *)
Inductive chosen :=
| Returns (ep : MapEntrypointName)
| Panics (msg : string).

(** The second loop: [which -= hb.Bias[ep]; if which < 0 { return ep }];
    [None] when the loop runs to its end. *)
Fixpoint pick (hb : MapBias) (which : Z) (eps : list MapEntrypointName)
  : option MapEntrypointName :=
  match eps with
  | [] => None
  | ep :: eps' =>
      let which := to_int64 (which - bias_of hb ep) in
      if which <? 0 then Some ep else pick hb which eps'
  end.

(** [hb.choose(r)]; [Intn] is [r.Intn], which panics on an argument that
    is not positive.  The second component is [hb] after the call. *)
Definition choose (hb : MapBias) (Intn : Z -> Z) : chosen * MapBias :=
  let hb :=
    if total hb =? 0 then
      {| Bias := Bias hb;
         total := add_biases hb (total hb) mapEntrypoints;
         InvalidChance := InvalidChance hb |}
    else hb in
  if total hb <=? 0 then (Panics "invalid argument to Intn", hb)
  else
    let which := Intn (total hb) in
    match pick hb which mapEntrypoints with
    | Some ep => (Returns ep, hb)
    | None => (Panics "random choice out of range", hb)
    end.

(** The sum of the five biases as the code computes it. *)
Definition bias_sum (hb : MapBias) : Z := add_biases hb 0 mapEntrypoints.

(** The sum of the biases of [eps] without wrap-around. *)
Definition exact_sum (hb : MapBias) (eps : list MapEntrypointName) : Z :=
  foldr (fun ep s => bias_of hb ep + s) 0 eps.

(** The value of [which] after the second loop has passed all of [eps]. *)
Definition which_after (hb : MapBias) (which : Z) (eps : list MapEntrypointName) : Z :=
  foldl (fun w ep => to_int64 (w - bias_of hb ep)) which eps.

(** [total] is unset, or holds the sum [choose] would compute. *)
Definition total_fresh (hb : MapBias) : Prop :=
  total hb = 0 \/ total hb = bias_sum hb.

(** A bias with weight on two entrypoints, as a configuration gives it. *)
Definition two_to_one : MapBias :=
  {| Bias := {[ GetLeavesName := 2; SetLeavesName := 1 ]};
     total := 0;
     InvalidChance := ∅ |}.

(** The same biases after [total] was cached for larger ones. *)
Definition stale : MapBias :=
  {| Bias := {[ GetLeavesName := 2; SetLeavesName := 1 ]};
     total := 10;
     InvalidChance := ∅ |}.

End Hammer.

(** ** A small in-memory instance of the collaborators

    One-byte indices, a hasher that tags its input, a store that keeps the
    signed roots and the leaves of every revision, and node ids that are
    bit prefixes.  The examples at the end of the file run the server on it. *)

Module InMemory.

Import Server.

Record memory := {
  st_trees : list Tree;
  st_roots : list SignedMapRoot;
  st_leaves : list (Z * MapLeaf);
  st_clock : Z
}.

(** Modelled from the spec: [tree.NodeID] and its methods are outside the
    source at hand; a node id is (depth, prefix bits).  Here the prefix bits,
    most significant first; the depth is the
    number of bits. *)
Definition node_id := list bool.

Definition byte_of_Z (z : Z) : Byte.byte :=
  default Byte.x00 (Byte.of_N (Z.to_N (z mod 256))).

Definition Z_of_byte (b : Byte.byte) : Z := Z.of_N (Byte.to_N b).

Definition hasher : MapHasher :=
  {| Size := 1;
     BitLen := 8;
     HashLeaf := fun treeID index value => byte_of_Z treeID :: index ++ value;
     HashEmpty := fun treeID index height => [byte_of_Z treeID; byte_of_Z height] |}.

(** The serialised root: the revision in one byte, then the root hash. *)
Definition marshal (smr : MapRootV1) : bytes :=
  byte_of_Z (Revision smr) :: RootHash smr.

Definition unmarshal (b : bytes) : MapRootV1 + error :=
  match b with
  | r :: h => inl {| RootHash := h; TimestampNanos := 0;
                     Revision := Z_of_byte r; Metadata := [] |}
  | [] => inr (FmtErrorf "map root too short" [])
  end.

Definition bytes_eqb (a b : bytes) : bool :=
  String.eqb (string_of_bytes a) (string_of_bytes b).

(** The newest leaf written for [index] at a revision up to [rev]. *)
Definition leaf_at (s : memory) (rev : Z) (index : bytes) : option MapLeaf :=
  snd <$> find (fun p => (fst p <=? rev) && bytes_eqb (Index (snd p)) index)
               (st_leaves s).

Definition bits_of_byte (b : Byte.byte) : list bool :=
  map (fun i => Z.testbit (Z_of_byte b) i) [7; 6; 5; 4; 3; 2; 1; 0].

Definition flip_last (p : list bool) : list bool :=
  match reverse p with
  | [] => []
  | b :: r => reverse (negb b :: r)
  end.

(** The sibling at every depth, from the leaf's up to the root's child. *)
Definition siblings (n : node_id) : list node_id :=
  map (fun d => flip_last (take d n)) (reverse (seq 1 (length n))).

Definition key_of (n : node_id) : string :=
  string_of_list_ascii (map (fun b : bool => if b then "1"%char else "0"%char) n).

Definition write_revision (s : memory) : Z := len (st_roots s).

Definition collaborators : Collaborators memory node_id :=
  {| GetTree := fun treeID _ s =>
       (match find (fun t => TreeId t =? treeID) (st_trees s) with
        | Some t => inl t
        | None => inr (StatusErrorf NotFound "tree %d not found" [ArgInt treeID])
        end, s);
     NewMapHasher := fun strategy =>
       if strategy =? 0 then inl hasher
       else inr (FmtErrorf "unknown hash strategy %d" [ArgInt strategy]);
     SnapshotForTree := fun _ s => ((Some 1, None), s);
     Begin := fun _ s => (inl 2, s);
     Commit := fun _ s => (None, s);
     Close := fun _ s => (None, s);
     LatestSignedMapRoot := fun _ s =>
       (match st_roots s with
        | r :: _ => (Some r, None)
        | [] => (None, Some ErrTreeNeedsInit)
        end, s);
     GetSignedMapRoot := fun _ rev s =>
       (match reverse (st_roots s) !! Z.to_nat rev with
        | Some r => inl r
        | None => inr (StatusErrorf NotFound "no root at revision %d" [ArgInt rev])
        end, s);
     Get := fun _ rev indices s => (inl (omap (leaf_at s rev) indices), s);
     BatchInclusionProof := fun h _ _ _ indices s =>
       (inl (list_to_map
               (map (fun i => (string_of_bytes i,
                               replicate (Z.to_nat (BitLen h)) (HashEmpty h 0 i 0)))
                    indices)), s);
     WriteRevision := fun _ s => (inl (write_revision s), s);
     ReadRevision := fun _ s => (inl (write_revision s - 1), s);
     Set_ := fun _ _ leaf s =>
       (None, {| st_trees := st_trees s; st_roots := st_roots s;
                 st_leaves := (write_revision s, leaf) :: st_leaves s;
                 st_clock := st_clock s |});
     GetMerkleNodes := fun _ _ _ s => (None, s);
     StoreSignedMapRoot := fun _ root s =>
       (None, {| st_trees := st_trees s; st_roots := root :: st_roots s;
                 st_leaves := st_leaves s; st_clock := st_clock s |});
     CounterAdd := fun _ _ s => (tt, s);
     NewSparseMerkleTreeWriter := fun _ _ _ _ s => (inl 3, s);
     WriterSetLeaves := fun _ _ s => (None, s);
     CalculateRoot := fun _ s => (inl [byte_of_Z (write_revision s)], s);
     Now := fun s =>
       (st_clock s, {| st_trees := st_trees s; st_roots := st_roots s;
                       st_leaves := st_leaves s; st_clock := st_clock s + 1 |});
     Signer := fun _ s => (inl 4, s);
     SignMapRoot := fun _ smr s =>
       (inl {| MapRoot := Some (marshal smr); Signature := [] |}, s);
     UnmarshalBinary := unmarshal;
     NewNodeIDFromHash := fun k => concat (map bits_of_byte k);
     Siblings := siblings;
     AsKey := key_of |}.

Definition tree7 : Tree := {| TreeId := 7; HashStrategy := 0 |}.

Definition fresh : memory :=
  {| st_trees := [tree7]; st_roots := []; st_leaves := []; st_clock := 1000 |}.

Definition world0 : World memory node_id := {| store := fresh; trace := [] |}.

Definition both_opts : TrillianMapServerOptions :=
  {| UseSingleTransaction := true; UseLargePreload := true |}.

Definition sched0 : ReadSchedule :=
  {| leaves_call_first := true; leaves_err_first := true |}.

(** The world after [InitMap] and one [SetLeaves] of the leaf [01 -> 2a]. *)
Definition leafA : MapLeaf :=
  {| Index := [Byte.x01]; LeafHash := []; LeafValue := [Byte.x2a]; ExtraData := [] |}.

Definition reqA : SetMapLeavesRequest :=
  {| sl_MapId := 7; sl_Leaves := [leafA]; sl_Metadata := []; sl_Revision := 0 |}.

Definition world1 : World memory node_id :=
  snd (InitMap collaborators {| im_MapId := 7 |} world0).

Definition world2 : World memory node_id :=
  snd (SetLeaves collaborators both_opts reqA
         (sequential_channel collaborators
            [{| HashedKey := [Byte.x01]; HashedValue := [] |}])
         world1).

(** Requests of the examples. *)

(** A write that expects revision 5 when the next revision is 1. *)
Definition reqStale : SetMapLeavesRequest :=
  {| sl_MapId := 7; sl_Leaves := [leafA]; sl_Metadata := []; sl_Revision := 5 |}.

(** A write without leaves. *)
Definition reqEmpty : SetMapLeavesRequest :=
  {| sl_MapId := 7; sl_Leaves := []; sl_Metadata := []; sl_Revision := 0 |}.

(** A read of a written and of an unwritten index. *)
Definition readBoth : GetMapLeavesRequest :=
  {| gl_MapId := 7; gl_Index := [[Byte.x01]; [Byte.x02]] |}.

Definition readBothAt1 : GetMapLeavesByRevisionRequest :=
  {| glr_MapId := 7; glr_Index := [[Byte.x01]; [Byte.x02]]; glr_Revision := 1 |}.

Definition readNegative : GetMapLeavesByRevisionRequest :=
  {| glr_MapId := 7; glr_Index := [[Byte.x01]]; glr_Revision := -1 |}.

Definition rootNegative : GetSignedMapRootByRevisionRequest :=
  {| gsr_MapId := 7; gsr_Revision := -1 |}.

(** A batch of two keys. *)
Definition hkv2 : list HashKeyValue :=
  [{| HashedKey := [Byte.x01]; HashedValue := [] |};
   {| HashedKey := [Byte.x02]; HashedValue := [] |}].

(** The channel on which the producers of the two keys take turns. *)
Definition channel2 : list (nodeAndID (NodeID := node_id)) :=
  alternate (producer collaborators [Byte.x01]) (producer collaborators [Byte.x02]).


(** The world with an empty trace and the store of [world2]. *)
Definition world2' : World memory node_id := {| store := store world2; trace := [] |}.

Definition world1' : World memory node_id := {| store := store world1; trace := [] |}.

End InMemory.

(** ** The remaining RPCs of the map server *)

Module ServerMore.

Import Server ServerSpec.

Record GetMapLeafRequest := { gf_MapId : Z; gf_Index : bytes }.

Record GetMapLeafByRevisionRequest := {
  gfr_MapId : Z; gfr_Index : bytes; gfr_Revision : Z
}.

Record GetMapLeafResponse := {
  lrsp_MapRoot : SignedMapRoot;
  lrsp_MapLeafInclusion : MapLeafInclusion
}.

(** The message of the run-time panic of [s[0]] on an empty slice. *)
Definition index_out_of_range : string :=
  "index out of range [0] with length 0".

Section Impl.

Context {S NodeID : Type}.
Variable co : Collaborators S NodeID.
Variable opts : TrillianMapServerOptions.

(** The part [GetLeaf] and [GetLeafByRevision] share after the read: the
    length check and the response. *)
Definition single_leaf (ret : GetMapLeavesResponse) : M S NodeID GetMapLeafResponse :=
  let got := len (rsp_MapLeafInclusion ret) in
  if negb (got =? 1) then
    fail (StatusErrorf Internal "Requested 1 leaf, got %v leaves" [ArgInt got])
  else
    match rsp_MapLeafInclusion ret with
    | x :: _ => Server.ret {| lrsp_MapRoot := rsp_MapRoot ret;
                              lrsp_MapLeafInclusion := x |}
    | [] => panic index_out_of_range
    end.

Definition GetLeaf (sched : ReadSchedule) (req : GetMapLeafRequest)
  : M S NodeID GetMapLeafResponse :=
  let* ret := getLeavesByRevision co sched (gf_MapId req) [gf_Index req]
                mostRecentRevision in
  single_leaf ret.

Definition GetLeafByRevision (sched : ReadSchedule) (req : GetMapLeafByRevisionRequest)
  : M S NodeID GetMapLeafResponse :=
  let* ret := getLeavesByRevision co sched (gfr_MapId req) [gfr_Index req]
                (gfr_Revision req) in
  single_leaf ret.

(** The RPC [GetSignedMapRoot]; the name without suffix is the
    transaction's method.  The root is a pointer: [None] is nil. *)
Definition GetSignedMapRoot_rpc (mapID : Z) : M S NodeID (option SignedMapRoot) :=
  let* tree := getTreeAndContext co mapID optsMapRead in
  let* r := snapshotForTree co tree in
  match r with
  | (_, Some err) => fail err
  | (None, None) => panic nil_dereference
  | (Some tx, None) =>
      defer (closeAndLog co tx)
        (let* r := call (EvLatestSignedMapRoot tx) (LatestSignedMapRoot co tx) in
         match r with
         | (_, Some err) => fail err
         | (r, None) =>
             let* _ := call_err (EvCommit tx) (Commit co tx) in
             Server.ret r
         end)
  end.

End Impl.

(** *** Vocabulary *)

Definition is_Close {NodeID : Type} (ev : Event NodeID) : bool :=
  match ev with EvClose _ => true | _ => false end.

Definition is_Commit {NodeID : Type} (ev : Event NodeID) : bool :=
  match ev with EvCommit _ => true | _ => false end.

(** The calls that belong to a write: opening a read-write transaction,
    asking for its write revision, setting leaves, driving the tree writer,
    signing and storing a root. *)
Definition is_write_event {NodeID : Type} (ev : Event NodeID) : bool :=
  match ev with
  | EvBegin _ | EvWriteRevision _ | EvSet _ _ _ | EvStoreSignedMapRoot _ _
  | EvNewSparseMerkleTreeWriter _ _ _ | EvWriterSetLeaves _ _ | EvCalculateRoot _
  | EvSigner _ | EvSignMapRoot _ _ | EvNow => true
  | _ => false
  end.

(** The [Set] calls for a list of leaves. *)
Definition set_events {NodeID : Type} (tx : TX) (leaves : list MapLeaf)
  : list (Event NodeID) :=
  map (fun l => EvSet tx (Index l) l) leaves.

(** The calls of the preload when the read revision is [r]. *)
Definition preload_events {NodeID : Type} (opts : TrillianMapServerOptions)
           (tx : TX) (r : Z) (nids : list NodeID) : list (Event NodeID) :=
  if UseSingleTransaction opts && UseLargePreload opts then
    [EvReadRevision tx; EvGetMerkleNodes tx r nids]
  else [].

(** The leaves and the summary [SetLeaves] works with. *)
Definition hashed_leaves (hasher : MapHasher) (tree : Tree) (req : SetMapLeavesRequest)
  : list MapLeaf :=
  map (set_LeafHash hasher tree) (sl_Leaves req).

Definition summary (leaves : list MapLeaf) : list HashKeyValue :=
  map (fun l => {| HashedKey := Index l; HashedValue := LeafHash l |}) leaves.

(** The request with other leaf hashes. *)
Definition with_hashes (h : MapLeaf -> bytes) (req : SetMapLeavesRequest)
  : SetMapLeavesRequest :=
  {| sl_MapId := sl_MapId req;
     sl_Leaves := map (fun l => {| Index := Index l; LeafHash := h l;
                                   LeafValue := LeafValue l;
                                   ExtraData := ExtraData l |}) (sl_Leaves req);
     sl_Metadata := sl_Metadata req;
     sl_Revision := sl_Revision req |}.




End ServerMore.

(** ** More of the load generator *)

Module HammerMore.

Import Hammer.

(** [hb.invalid(ep, r)]; [Intn] is [r.Intn]. *)
Definition invalid (hb : MapBias) (ep : MapEntrypointName) (Intn : Z -> Z) : bool :=
  let chance := default 0 (InvalidChance hb !! ep) in
  if chance <=? 0 then false else Intn chance =? 0.



(** The interface [readOps]; [Op] is [mapOperationFn]. *)
Record readOps (Op : Type) := {
  getLeaves : Op;
  getLeavesRev : Op;
  getSMR : Op;
  getSMRRev : Op
}.
Arguments getLeaves {Op} r.
Arguments getLeavesRev {Op} r.
Arguments getSMR {Op} r.
Arguments getSMRRev {Op} r.

(** The error [fmt.Errorf("internal error: unknown operation %s", ep)]. *)
Inductive op_error := unknown_operation (ep : MapEntrypointName).

(** [getOp(ep, read, write)]: the [switch] of the source, case by case. *)
Definition getOp {Op : Type} (ep : MapEntrypointName) (read : readOps Op) (write : Op)
  : Op + op_error :=
  if String.eqb ep GetLeavesName then inl (getLeaves read)
  else if String.eqb ep GetLeavesRevName then inl (getLeavesRev read)
  else if String.eqb ep GetSMRName then inl (getSMR read)
  else if String.eqb ep GetSMRRevName then inl (getSMRRev read)
  else if String.eqb ep SetLeavesName then inl write
  else inr (unknown_operation ep).

(** [strings.TrimRight(s, "\x00")] on the bytes of [s]: the leading zero
    bytes of the reversed string are dropped. *)
Fixpoint drop_zeros (b : bytes) : bytes :=
  match b with
  | x :: b' => if Byte.eqb x Byte.x00 then drop_zeros b' else b
  | [] => []
  end.

Definition TrimRight_zero (b : bytes) : bytes := reverse (drop_zeros (reverse b)).

(** [dehash(index)]. *)
Definition dehash (index : bytes) : string := string_of_bytes (TrimRight_zero index).

(** [metadataForRev(rev)] for a [uint64]; [%d] is the decimal numeral. *)
Definition metadataForRev (rev : Z) : bytes :=
  if rev =? 0 then []
  else list_byte_of_string ("Metadata-" +:+ pretty (Z.to_N rev)).

(** The contract of [r.Intn] on positive arguments. *)
Definition Intn_in_range (Intn : Z -> Z) : Prop :=
  forall n, 0 < n -> 0 <= Intn n < n.

(** No bias of [eps] is negative, and their sum fits a Go [int]. *)
Definition biases_fit (hb : MapBias) (eps : list MapEntrypointName) : Prop :=
  (forall ep, ep ∈ eps -> 0 <= bias_of hb ep) /\ exact_sum hb eps < 2 ^ 63.

(** The random source that always returns the largest number allowed. *)
Definition largest (n : Z) : Z := n - 1.

(** A bias under which every [SetLeaves] is made invalid. *)
Definition always_invalid : MapBias :=
  {| Bias := {[ GetLeavesName := 2; SetLeavesName := 1 ]};
     total := 0;
     InvalidChance := {[ SetLeavesName := 1 ]} |}.

End HammerMore.

(** ** More inputs for the runs at the end of the file *)

Module InMemoryMore.

Import Server ServerMore InMemory.

Definition unavailable : error := StatusErrorf Unavailable "storage is down" [].

(** The in-memory collaborators over a storage whose [LatestSignedMapRoot]
    fails. *)
Definition broken : Collaborators memory node_id :=
  {| GetTree := GetTree collaborators;
     NewMapHasher := NewMapHasher collaborators;
     SnapshotForTree := SnapshotForTree collaborators;
     Begin := Begin collaborators;
     Commit := Commit collaborators;
     Close := Close collaborators;
     LatestSignedMapRoot := fun _ s => ((None, Some unavailable), s);
     GetSignedMapRoot := GetSignedMapRoot collaborators;
     Get := Get collaborators;
     BatchInclusionProof := BatchInclusionProof collaborators;
     WriteRevision := WriteRevision collaborators;
     ReadRevision := ReadRevision collaborators;
     Set_ := Set_ collaborators;
     GetMerkleNodes := GetMerkleNodes collaborators;
     StoreSignedMapRoot := StoreSignedMapRoot collaborators;
     CounterAdd := CounterAdd collaborators;
     NewSparseMerkleTreeWriter := NewSparseMerkleTreeWriter collaborators;
     WriterSetLeaves := WriterSetLeaves collaborators;
     CalculateRoot := CalculateRoot collaborators;
     Now := Now collaborators;
     Signer := Signer collaborators;
     SignMapRoot := SignMapRoot collaborators;
     UnmarshalBinary := UnmarshalBinary collaborators;
     NewNodeIDFromHash := NewNodeIDFromHash collaborators;
     Siblings := Siblings collaborators;
     AsKey := AsKey collaborators |}.

(** A write of a leaf whose index is one byte too long. *)
Definition leafLong : MapLeaf :=
  {| Index := [Byte.x01; Byte.x02]; LeafHash := []; LeafValue := [Byte.x2a];
     ExtraData := [] |}.

Definition reqLong : SetMapLeavesRequest :=
  {| sl_MapId := 7; sl_Leaves := [leafLong]; sl_Metadata := []; sl_Revision := 0 |}.

(** The channel of the write [reqA]. *)
Definition channelA : list (nodeAndID (NodeID := node_id)) :=
  sequential_channel collaborators [{| HashedKey := [Byte.x01]; HashedValue := [] |}].

(** Reads of the single index [01]. *)
Definition leafReq : GetMapLeafRequest := {| gf_MapId := 7; gf_Index := [Byte.x01] |}.

Definition leafReqNegative : GetMapLeafByRevisionRequest :=
  {| gfr_MapId := 7; gfr_Index := [Byte.x01]; gfr_Revision := -1 |}.

End InMemoryMore.

(** * Properties *)

(** ** Index validation *)

Module ValidateFacts.

Import ValidateSpec.

Lemma string_of_bytes_inj (a b : bytes) :
  string_of_bytes a = string_of_bytes b -> a = b.
Proof.
  unfold string_of_bytes. intros H.
  rewrite <- (list_byte_of_string_of_list_byte a),
          <- (list_byte_of_string_of_list_byte b).
  now rewrite H.
Qed.

Lemma seen_upto_step (l : list bytes) (i : nat) (seen : gmap string bool) (x : bytes) :
  l !! i = Some x ->
  seen_upto l i seen ->
  seen_upto l (S i) (<[string_of_bytes x := true]> seen).
Proof.
  intros Hx Hs y. rewrite (take_S_r _ _ _ Hx), elem_of_app, list_elem_of_singleton.
  destruct (decide (string_of_bytes x = string_of_bytes y)) as [e|n].
  - rewrite e, lookup_insert_eq. simpl. split; [|done].
    intros _. right. symmetry. now apply string_of_bytes_inj.
  - rewrite lookup_insert_ne by done. rewrite (Hs y). split.
    + now left.
    + intros [?| ->]; [done|]. now destruct n.
Qed.

Lemma index_at_lookup (l : list bytes) (i : nat) (x : bytes) :
  l !! i = Some x -> index_at l (Z.of_nat i) = x.
Proof.
  intros H. unfold index_at. rewrite Nat2Z.id.
  now apply list_lookup_total_correct.
Qed.

Lemma loop_spec (size : Z) (l : list bytes) (k i : nat) (seen : gmap string bool) :
  (i + k = length l)%nat ->
  seen_upto l i seen ->
  (forall j, (j < i)%nat -> ~ offending size l j) ->
  match validateIndices_loop size (index_at l) k (Z.of_nat i) seen with
  | None => forall j, ~ offending size l j
  | Some e => exists p x, l !! p = Some x /\ first_offending size l p /\
                          e = error_at size p x
  end.
Proof.
  revert i seen. induction k as [|k IH]; intros i seen Hlen Hseen Hbefore; simpl.
  - intros j Hoff. apply (Hbefore j); [|done].
    destruct Hoff as [x [Hx _]]. apply lookup_lt_Some in Hx. lia.
  - destruct (lookup_lt_is_Some_2 l i) as [x Hx]; [lia|].
    rewrite (index_at_lookup _ _ _ Hx).
    destruct (len x =? size) eqn:Elen; simpl.
    + destruct (default false (seen !! string_of_bytes x)) eqn:Eseen.
      * exists i, x. split; [done|]. split.
        -- split; [|done]. exists x. split; [done|]. right. now apply Hseen.
        -- unfold error_at. now rewrite Elen.
      * replace (Z.of_nat i + 1) with (Z.of_nat (S i)) by lia.
        apply IH; [lia| now apply seen_upto_step |].
        intros j Hj. destruct (decide (j = i)) as [->|Hne].
        -- intros [y [Hy [Hbad|Hdup]]]; rewrite Hx in Hy; injection Hy as <-.
           ++ apply Z.eqb_eq in Elen. done.
           ++ apply Hseen in Hdup. congruence.
        -- apply Hbefore. lia.
    + exists i, x. split; [done|]. split.
      * split; [|done]. exists x. split; [done|]. left.
        now apply Z.eqb_neq.
      * unfold error_at. now rewrite Elen.
Qed.

Lemma no_offending_iff (size : Z) (l : list bytes) :
  (forall j, ~ offending size l j) <->
  Forall (fun x => len x = size) l /\ NoDup l.
Proof.
  split.
  - intros H. split.
    + apply Forall_lookup. intros i x Hx.
      destruct (decide (len x = size)) as [|n]; [done|].
      destruct (H i). exists x. split; [done|]. now left.
    + apply NoDup_alt. intros i j x Hi Hj.
      destruct (Nat.lt_trichotomy i j) as [Hlt|[->|Hlt]]; [|done|].
      * destruct (H j). exists x. split; [done|]. right.
        apply list_elem_of_lookup. exists i. rewrite lookup_take_lt; done.
      * destruct (H i). exists x. split; [done|]. right.
        apply list_elem_of_lookup. exists j. rewrite lookup_take_lt; done.
  - intros [Hall Hnd] j [x [Hx [Hbad|Hdup]]].
    + rewrite Forall_lookup in Hall. apply Hbad, (Hall j x Hx).
    + apply list_elem_of_lookup in Hdup as [i Hi].
      apply lookup_take_Some in Hi as [Hi Hlt].
      rewrite NoDup_alt in Hnd. specialize (Hnd i j x Hi Hx). lia.
Qed.

Lemma validate_request_cases (size : Z) (l : list bytes) :
  match validate_request size l with
  | None => Forall (fun x => len x = size) l /\ NoDup l
  | Some e => exists p x, l !! p = Some x /\ first_offending size l p /\
                          e = error_at size p x
  end.
Proof.
  unfold validate_request, validateIndices, len. rewrite Nat2Z.id.
  assert (Hs : seen_upto l 0 ∅).
  { intros x. rewrite lookup_empty, take_0. simpl. split; [done|].
    intros Hin. inversion Hin. }
  pose proof (loop_spec size l (length l) 0 ∅ eq_refl Hs) as H.
  change (Z.of_nat 0) with 0 in H.
  destruct (validateIndices_loop size (index_at l) (length l) 0 ∅).
  - apply H. lia.
  - apply no_offending_iff, H. lia.
Qed.

Lemma validateIndices_loop_ext (size : Z) (f g : Z -> bytes) (k : nat) (i : Z)
      (seen : gmap string bool) :
  (forall j, i <= j < i + Z.of_nat k -> f j = g j) ->
  validateIndices_loop size f k i seen = validateIndices_loop size g k i seen.
Proof.
  revert i seen. induction k as [|k IH]; intros i seen H; simpl; [done|].
  rewrite (H i) by lia.
  destruct (negb _); [done|]. destruct (default _ _); [done|].
  apply IH. intros j Hj. apply H. lia.
Qed.

(** The accessor of [SetLeaves] reads the same indices as a request that
    lists the leaves' indices. *)
Lemma validate_leaves (size : Z) (leaves : list Server.MapLeaf) :
  validateIndices size (len leaves) (Server.leaf_index_at leaves)
  = validate_request size (map Server.Index leaves).
Proof.
  unfold validate_request, validateIndices, len. rewrite length_map.
  apply validateIndices_loop_ext. intros j Hj.
  unfold Server.leaf_index_at, index_at.
  rewrite Nat2Z.id in Hj.
  destruct (lookup_lt_is_Some_2 leaves (Z.to_nat j)) as [x Hx]; [lia|].
  rewrite Hx. symmetry. apply list_lookup_total_correct.
  now rewrite list_lookup_fmap, Hx.
Qed.

(** C1 (amended).  Validation succeeds exactly when every index has the
    hasher's size and no index occurs twice.  When it fails, the error has
    kind [InvalidArgument] and names the first position, in request order,
    whose index has the wrong length or repeats an earlier index: with the
    wrong-length message when the length is wrong, with the duplicate message
    otherwise.  [SetLeaves] validates the indices of its leaves in the same
    way. *)
Theorem validation_names_first_offender (size : Z) (l : list bytes)
        (leaves : list Server.MapLeaf) :
  (validate_request size l = None
   <-> Forall (fun x => len x = size) l /\ NoDup l)
  /\ (forall e, validate_request size l = Some e ->
        status_Code (Some e) = InvalidArgument
        /\ exists p x, l !! p = Some x /\ first_offending size l p
                       /\ e = error_at size p x
                       /\ named_position e = Some (Z.of_nat p))
  /\ validateIndices size (len leaves) (Server.leaf_index_at leaves)
     = validate_request size (map Server.Index leaves).
Proof.
  pose proof (validate_request_cases size l) as H.
  split; [|split; [|apply validate_leaves]].
  - destruct (validate_request size l) as [e|]; [|done].
    split; [done|]. intros Hok. exfalso.
    destruct H as (p & x & _ & [Hoff _] & _).
    pose proof (proj2 (no_offending_iff size l) Hok) as Hno. now apply (Hno p).
  - intros e He. rewrite He in H. destruct H as (p & x & Hx & Hfirst & ->).
    split.
    + unfold error_at. now destruct (len x =? size).
    + exists p, x. repeat split; try done; try apply Hfirst.
      unfold error_at. now destruct (len x =? size).
Qed.

End ValidateFacts.

(** ** The map server *)

Module ServerFacts.

Import Server ServerSpec.

(** Case analysis on the result of the next collaborator call in [H]. *)
Ltac destruct_innermost e :=
  lazymatch e with
  | context [match ?e' with _ => _ end] => destruct_innermost e'
  | _ => destruct e eqn:?
  end.

Ltac unfold_server :=
  unfold GetLeaves, GetLeavesByRevision, getLeavesByRevision,
    GetLeavesByRevisionNoProof, GetSignedMapRootByRevision, fetch_leaves,
    fetch_proofs, first_error, getTreeAndHasher, getTreeAndContext, snapshotForTree,
    closeAndLog, call_sum, call_err, wrap, defer, bind, call, of_sum, of_err,
    ret, fail, panic in *.

Ltac case_step H :=
  match type of H with
  | context [match ?e with _ => _ end] =>
      destruct_innermost e; simpl in H; try discriminate H
  end.

(** *** Helpers *)

(** *** The leaf map of a read *)

Lemma index_leaves_lookup (stored : list MapLeaf) (index : bytes) :
  match index_leaves stored !! string_of_bytes index with
  | Some l => l ∈ stored /\ Index l = index
  | None => forall l, l ∈ stored -> Index l <> index
  end.
Proof.
  unfold index_leaves. induction stored as [|x stored IH] using rev_ind.
  - simpl. rewrite lookup_empty. intros l Hl. inversion Hl.
  - rewrite foldl_snoc.
    destruct (decide (string_of_bytes (Index x) = string_of_bytes index)) as [e|n].
    + rewrite e, lookup_insert_eq. split.
      * apply elem_of_app. right. now apply list_elem_of_singleton.
      * now apply ValidateFacts.string_of_bytes_inj.
    + rewrite lookup_insert_ne by done.
      destruct (foldl _ ∅ stored !! string_of_bytes index) as [l|].
      * destruct IH as [Hin Hidx]. split; [|done]. apply elem_of_app. now left.
      * intros l Hl. apply elem_of_app in Hl as [Hl|Hl]; [now apply IH|].
        apply list_elem_of_singleton in Hl as ->. congruence.
Qed.

Lemma add_empty_leaves_cons (x : bytes) (indices : list bytes)
      (m : gmap string MapLeaf) :
  add_empty_leaves (x :: indices) m
  = add_empty_leaves indices
      (match m !! string_of_bytes x with
       | Some _ => m
       | None => <[string_of_bytes x := empty_leaf x]> m
       end).
Proof. reflexivity. Qed.

Lemma add_empty_leaves_kept (indices : list bytes) (m : gmap string MapLeaf)
      (index : bytes) (l : MapLeaf) :
  m !! string_of_bytes index = Some l ->
  add_empty_leaves indices m !! string_of_bytes index = Some l.
Proof.
  revert m. induction indices as [|x indices IH]; intros m Hm; [done|].
  rewrite add_empty_leaves_cons. apply IH.
  destruct (m !! string_of_bytes x) eqn:E; [done|].
  rewrite lookup_insert_ne; [done|]. congruence.
Qed.

Lemma add_empty_leaves_added (indices : list bytes) (m : gmap string MapLeaf)
      (index : bytes) :
  m !! string_of_bytes index = None ->
  index ∈ indices ->
  add_empty_leaves indices m !! string_of_bytes index = Some (empty_leaf index).
Proof.
  revert m. induction indices as [|x indices IH]; intros m Hm Hin.
  - inversion Hin.
  - rewrite add_empty_leaves_cons.
    destruct (m !! string_of_bytes x) eqn:E.
    + apply IH; [done|]. apply elem_of_cons in Hin as [->|Hin]; [congruence|done].
    + destruct (<[string_of_bytes x := empty_leaf x]> m !! string_of_bytes index)
        as [l|] eqn:El.
      * rewrite (add_empty_leaves_kept _ _ _ _ El). f_equal.
        apply lookup_insert_Some in El as [[Hkey <-]|[_ El]]; [|congruence].
        apply ValidateFacts.string_of_bytes_inj in Hkey. now subst.
      * apply IH; [done|]. apply elem_of_cons in Hin as [->|Hin]; [|done].
        now rewrite lookup_insert_eq in El.
Qed.

(** What the response holds at a requested index. *)
Lemma leaf_of_request (stored : list MapLeaf) (indices : list bytes) (index : bytes) :
  index ∈ indices ->
  exists leaf,
    add_empty_leaves indices (index_leaves stored) !! string_of_bytes index = Some leaf
    /\ Index leaf = index
    /\ (leaf ∈ stored
        \/ ((forall l, l ∈ stored -> Index l <> index) /\ leaf = empty_leaf index)).
Proof.
  intros Hin.
  pose proof (index_leaves_lookup stored index) as H.
  destruct (index_leaves stored !! string_of_bytes index) as [l|] eqn:E.
  - exists l. destruct H. split; [now apply add_empty_leaves_kept|].
    split; [done|]. now left.
  - exists (empty_leaf index). split; [now apply add_empty_leaves_added|].
    split; [done|]. now right.
Qed.

Lemma strip_LeafHash_spec (stored : list MapLeaf) :
  Forall (fun l => LeafHash l = []) (map strip_LeafHash stored)
  /\ Forall2 same_but_hash (map strip_LeafHash stored) stored.
Proof.
  split.
  - apply Forall_forall. intros l Hl. apply list_elem_of_fmap in Hl as [st [-> _]]. done.
  - induction stored as [|st stored IH]; simpl; constructor; [|done].
    unfold same_but_hash. done.
Qed.

Lemma to_uint64_to_int64 (z : Z) : to_uint64 (to_int64 z) = to_uint64 z.
Proof.
  unfold to_uint64, to_int64.
  rewrite Zminus_mod_idemp_l. f_equal. lia.
Qed.

Lemma to_int64_small (z : Z) : - 2 ^ 63 <= z < 2 ^ 63 -> to_int64 z = z.
Proof. intros H. unfold to_int64. rewrite Z.mod_small; lia. Qed.

Section Reads.

Context {S NodeID : Type}.
Variable co : Collaborators S NodeID.

(** The anatomy of a successful read with proofs. *)
Lemma getLeavesByRevision_success (sched : ReadSchedule) (mapID : Z)
      (indices : list bytes) (revision : Z) (w w' : World S NodeID)
      (rsp : GetMapLeavesResponse) :
  getLeavesByRevision co sched mapID indices revision w = (Ret rsp, w') ->
  exists tree hasher tx mapRoot stored proofs s1 s1' s2 s2',
    validate_request (Size hasher) indices = None
    /\ UnmarshalBinary co (default [] (MapRoot (rsp_MapRoot rsp))) = inl mapRoot
    /\ Get co tx (to_int64 (Revision mapRoot)) indices s1 = (inl stored, s1')
    /\ BatchInclusionProof co hasher tx (to_int64 (Revision mapRoot))
         (to_int64 (Revision mapRoot)) indices s2 = (inl proofs, s2')
    /\ (if leaves_call_first sched then s2 = s1' else s1 = s2')
    /\ rsp_MapLeafInclusion rsp
       = map (fun index =>
                {| Leaf := add_empty_leaves indices (index_leaves stored)
                             !! string_of_bytes index;
                   Inclusion := default [] (proofs !! string_of_bytes index) |})
             indices
    /\ trace w'
       = trace w
         ++ [EvGetTree mapID optsMapRead; EvCounterAdd "get_leaves" (len indices);
             EvSnapshotForTree tree; root_event tx revision]
         ++ fetch_events sched tx (to_int64 (Revision mapRoot)) indices
         ++ [EvCommit tx; EvClose tx].
Proof.
  intros H. unfold_server. simpl in H. repeat case_step H.
  all: injection H as <- <-; simpl.
  all: unfold root_event, fetch_events.
  all: repeat match goal with Hb : _ = true |- _ => rewrite Hb
                         | Hb : _ = false |- _ => rewrite Hb end.
  all: do 10 eexists.
  all: split; [eassumption|]; split; [eassumption|]; split; [eassumption|].
  all: split; [eassumption|]; split; [reflexivity|]; split; [reflexivity|].
  all: now rewrite <- !app_assoc.
Qed.

Lemma run_read_success (sched : ReadSchedule) (c : read_call) (w w' : World S NodeID)
      (rsp : GetMapLeavesResponse) :
  run_read co sched c w = (Ret rsp, w') ->
  getLeavesByRevision co sched (read_map c) (read_indices c) (read_revision c) w
  = (Ret rsp, w').
Proof.
  destruct c as [req|req]; simpl; [done|].
  unfold GetLeavesByRevision. now destruct (glr_Revision req <? 0).
Qed.

(** C4.  Every successful [GetLeaves] or [GetLeavesByRevision] answers with
    one [MapLeafInclusion] per requested index, in request order.  The entry
    at a position carries a leaf with the requested index: a leaf the
    storage returned, or, when the storage returned none for that index, the
    empty leaf (index set, value and hash empty); it is paired with the
    proof the reader returned for that index. *)
Theorem read_one_inclusion_per_index (sched : ReadSchedule) (c : read_call)
        (w w' : World S NodeID) (rsp : GetMapLeavesResponse) :
  run_read co sched c w = (Ret rsp, w') ->
  exists tx rev hasher stored proofs s1 s1' s2 s2',
    Get co tx rev (read_indices c) s1 = (inl stored, s1')
    /\ BatchInclusionProof co hasher tx rev rev (read_indices c) s2 = (inl proofs, s2')
    /\ (if leaves_call_first sched then s2 = s1' else s1 = s2')
    /\ EvGet tx rev (read_indices c) ∈ trace w'
    /\ EvBatchInclusionProof tx rev rev (read_indices c) ∈ trace w'
    /\ length (rsp_MapLeafInclusion rsp) = length (read_indices c)
    /\ forall (i : nat) (index : bytes),
         read_indices c !! i = Some index ->
         exists leaf,
           rsp_MapLeafInclusion rsp !! i
           = Some {| Leaf := Some leaf;
                     Inclusion := default [] (proofs !! string_of_bytes index) |}
           /\ Index leaf = index
           /\ (leaf ∈ stored
               \/ ((forall l, l ∈ stored -> Index l <> index)
                   /\ leaf = empty_leaf index)).
Proof.
  intros H. apply run_read_success, getLeavesByRevision_success in H.
  destruct H as (tree & hasher & tx & mapRoot & stored & proofs & s1 & s1' & s2 & s2'
                 & _ & _ & HGet & HBip & Hchain & Hincl & Htrace).
  exists tx, (to_int64 (Revision mapRoot)), hasher, stored, proofs, s1, s1', s2, s2'.
  split; [done|]. split; [done|]. split; [done|].
  assert (Hev : forall ev, ev ∈ fetch_events sched tx (to_int64 (Revision mapRoot))
                                  (read_indices c) -> ev ∈ trace w').
  { intros ev Hin. rewrite Htrace, !elem_of_app. right. right. now left. }
  split; [|split].
  { apply Hev. unfold fetch_events.
    destruct (leaves_call_first sched); rewrite !elem_of_cons; tauto. }
  { apply Hev. unfold fetch_events.
    destruct (leaves_call_first sched); rewrite !elem_of_cons; tauto. }
  rewrite Hincl. split; [apply length_map|].
  intros i index Hi.
  destruct (leaf_of_request stored (read_indices c) index) as (leaf & Hl & Hidx & Hor).
  { apply list_elem_of_lookup. now exists i. }
  exists leaf. split; [|done].
  change (map ?f ?l) with (f <$> l). rewrite list_lookup_fmap, Hi. simpl. now rewrite Hl.
Qed.

(** C8.  In every successful read with proofs, the leaf fetch and the proof
    fetch (reader and query) are made at one revision: the revision decoded
    from the signed root that the same response returns, converted to
    [int64].  The calls the read makes are exactly: tree lookup, counter,
    snapshot, the root fetch, the two fetches in the order of the schedule,
    commit, close. *)
Theorem read_fetches_at_root_revision (sched : ReadSchedule) (c : read_call)
        (w w' : World S NodeID) (rsp : GetMapLeavesResponse) :
  run_read co sched c w = (Ret rsp, w') ->
  exists mapRoot tree tx,
    UnmarshalBinary co (default [] (MapRoot (rsp_MapRoot rsp))) = inl mapRoot
    /\ to_uint64 (to_int64 (Revision mapRoot)) = to_uint64 (Revision mapRoot)
    /\ (0 <= Revision mapRoot < 2 ^ 63 -> to_int64 (Revision mapRoot) = Revision mapRoot)
    /\ trace w'
       = trace w
         ++ [EvGetTree (read_map c) optsMapRead;
             EvCounterAdd "get_leaves" (len (read_indices c));
             EvSnapshotForTree tree; root_event tx (read_revision c)]
         ++ fetch_events sched tx (to_int64 (Revision mapRoot)) (read_indices c)
         ++ [EvCommit tx; EvClose tx].
Proof.
  intros H. apply run_read_success, getLeavesByRevision_success in H.
  destruct H as (tree & hasher & tx & mapRoot & stored & proofs & s1 & s1' & s2 & s2'
                 & _ & Hroot & _ & _ & _ & _ & Htrace).
  exists mapRoot, tree, tx. split; [done|]. split; [apply to_uint64_to_int64|].
  split; [|done]. intros Hr. apply to_int64_small. lia.
Qed.

(** C6.  The leaves of a successful [GetLeavesByRevisionNoProof] are the
    leaves the storage returned for the request, each with [LeafHash]
    emptied and index, value and extra data unchanged. *)
Theorem no_proof_leaf_hash_empty (req : GetMapLeavesByRevisionRequest)
        (w w' : World S NodeID) (leaves : list MapLeaf) :
  GetLeavesByRevisionNoProof co req w = (Ret leaves, w') ->
  exists tx s s' stored,
    Get co tx (glr_Revision req) (glr_Index req) s = (inl stored, s')
    /\ EvGet tx (glr_Revision req) (glr_Index req) ∈ trace w'
    /\ Forall (fun l => LeafHash l = []) leaves
    /\ Forall2 same_but_hash leaves stored.
Proof.
  intros H. unfold_server. simpl in H. repeat case_step H.
  injection H as <- <-. simpl.
  do 4 eexists. split; [eassumption|]. split.
  - rewrite !elem_of_app. left. right. now apply list_elem_of_singleton.
  - apply strip_LeafHash_spec.
Qed.

(** C5 (amended).  A negative revision makes [GetLeavesByRevision],
    [GetLeavesByRevisionNoProof] and [GetSignedMapRootByRevision] fail
    before any collaborator is called: the world, its trace included, is
    returned as it was.  The error is the plain [fmt.Errorf] value, which
    carries no status code. *)
Theorem negative_revision_fails_first (sched : ReadSchedule)
        (req : GetMapLeavesByRevisionRequest)
        (sreq : GetSignedMapRootByRevisionRequest) (w : World S NodeID) :
  glr_Revision req < 0 ->
  gsr_Revision sreq < 0 ->
  GetLeavesByRevision co sched req w
  = (Fail (FmtErrorf "map revision %d must be >= 0" [ArgInt (glr_Revision req)]), w)
  /\ GetLeavesByRevisionNoProof co req w
     = (Fail (FmtErrorf "map revision %d must be >= 0" [ArgInt (glr_Revision req)]), w)
  /\ GetSignedMapRootByRevision co sreq w
     = (Fail (FmtErrorf "map revision %d must be >= 0" [ArgInt (gsr_Revision sreq)]), w)
  /\ status_Code
       (Some (FmtErrorf "map revision %d must be >= 0" [ArgInt (glr_Revision req)]))
     = Unknown.
Proof.
  intros H1 H2.
  unfold GetLeavesByRevision, GetLeavesByRevisionNoProof, GetSignedMapRootByRevision.
  apply Z.ltb_lt in H1, H2. rewrite H1, H2. done.
Qed.

End Reads.


(** *** The channel of the preload *)

Section Channel.

Context {A : Type}.

Lemma concat_all_nil (ls : list (list A)) :
  Forall (fun l => l = []) ls -> concat ls = [].
Proof. induction 1 as [|l ls -> _ IH]; simpl; done. Qed.

(** The channel delivers what the producers send, no more and no less. *)
Lemma interleaving_elem_of (ls : list (list A)) (c : list A) :
  interleaving ls c -> forall x, x ∈ c <-> x ∈ concat ls.
Proof.
  induction 1 as [ls Hnil|ls1 y ys ls2 c _ IH]; intros x.
  - now rewrite concat_all_nil.
  - rewrite elem_of_cons, IH, !concat_app, !elem_of_app. simpl.
    rewrite !elem_of_app, elem_of_cons, elem_of_app. tauto.
Qed.

(** Running the producers one after the other is one of the executions. *)
Lemma interleaving_concat (ls : list (list A)) : interleaving ls (concat ls).
Proof.
  induction ls as [|l ls IH]; simpl.
  - now constructor.
  - induction l as [|x l IHl]; simpl.
    + clear -IH. induction IH as [ls Hnil|ls1 y ys ls2 c _ IH'].
      * constructor. now constructor.
      * apply (interleaving_send ([] :: ls1)). exact IH'.
    + apply (interleaving_send []). exact IHl.
Qed.

Lemma interleaving_alternate (l k : list A) :
  interleaving [l; k] (alternate l k).
Proof.
  revert k. induction l as [|x l IH]; intros k.
  - simpl. rewrite <- (app_nil_r k) at 2.
    apply (interleaving_concat [[]; k]).
  - destruct k as [|y k].
    + simpl. rewrite <- (app_nil_r (x :: l)) at 2.
      apply (interleaving_concat [x :: l; []]).
    + simpl. apply (interleaving_send [] x l [y :: k]).
      apply (interleaving_send [l] y k []). apply IH.
Qed.

End Channel.

Section Writes.

Context {S NodeID : Type}.
Variable co : Collaborators S NodeID.
Variable opts : TrillianMapServerOptions.

(** *** The consumer of the preload *)

Lemma consume_spec (c : list (nodeAndID (NodeID := NodeID)))
      (nidSet : gmap string bool) (nids : list NodeID) :
  (forall k, is_Some (nidSet !! k) <-> k ∈ map (AsKey co) nids) ->
  NoDup (map (AsKey co) nids) ->
  (forall nai, nai ∈ c -> id nai = AsKey co (node nai)) ->
  NoDup (map (AsKey co) (consume c nidSet nids))
  /\ (forall k, k ∈ map (AsKey co) (consume c nidSet nids)
                <-> k ∈ map (AsKey co) nids \/ k ∈ map id c)
  /\ (forall n, n ∈ consume c nidSet nids -> n ∈ nids \/ n ∈ map node c).
Proof.
  revert nidSet nids. induction c as [|nai c IH]; intros nidSet nids Hset Hnd Hid; simpl.
  - split; [done|]. split; [|now left]. intros k. split; [now left|].
    intros [?|Hk]; [done|]. inversion Hk.
  - assert (Hnai : id nai = AsKey co (node nai)) by (apply Hid; now left).
    assert (Hid' : forall x, x ∈ c -> id x = AsKey co (node x)).
    { intros x Hx. apply Hid. now right. }
    destruct (nidSet !! id nai) as [b|] eqn:E.
    + destruct (IH nidSet nids Hset Hnd Hid') as (H1 & H2 & H3).
      split; [done|]. split.
      * intros k. rewrite H2, elem_of_cons. split; [tauto|].
        intros [?|[->|?]]; [tauto| |tauto]. left. apply Hset. now exists b.
      * intros n Hn. destruct (H3 n Hn); [now left|]. right. now right.
    + assert (Hfresh : id nai ∉ map (AsKey co) nids).
      { intros Hin. apply Hset in Hin as [b Hb]. congruence. }
      destruct (IH (<[id nai := true]> nidSet) (nids ++ [node nai])) as (H1 & H2 & H3).
      * intros k. rewrite map_app, elem_of_app. simpl.
        rewrite list_elem_of_singleton, <- Hnai, <- Hset.
        destruct (decide (id nai = k)) as [->|n].
        -- rewrite lookup_insert_eq. split; [now right|]. intros _. now exists true.
        -- rewrite lookup_insert_ne by done. split; [now left|].
           intros [?|?]; [done|congruence].
      * rewrite map_app. simpl. apply NoDup_app. split; [done|]. split.
        -- intros k Hk Hk'. apply list_elem_of_singleton in Hk'. congruence.
        -- apply NoDup_singleton.
      * done.
      * split; [done|]. split.
        -- intros k. rewrite H2, map_app, elem_of_app, elem_of_cons. simpl.
           rewrite list_elem_of_singleton, <- Hnai. tauto.
        -- intros n Hn. destruct (H3 n Hn) as [Hn'|Hn'].
           ++ apply elem_of_app in Hn' as [?|Hn']; [now left|].
              apply list_elem_of_singleton in Hn' as ->. right. now left.
           ++ right. now right.
Qed.

Lemma elem_of_producers (hkv : list HashKeyValue) (nai : nodeAndID) :
  nai ∈ concat (producers co hkv)
  <-> exists n, n ∈ all_siblings co hkv /\ nai = {| id := AsKey co n; node := n |}.
Proof.
  unfold producers, producer, all_siblings.
  induction hkv as [|kv hkv IH]; simpl.
  - split; [intros H; inversion H|intros [n [H _]]; inversion H].
  - rewrite elem_of_app, IH. change (map ?f ?l) with (f <$> l) at 1.
    rewrite list_elem_of_fmap. split.
    + intros [[n [-> Hn]]|[n [Hn ->]]]; exists n; rewrite elem_of_app; tauto.
    + intros [n [Hn ->]]. apply elem_of_app in Hn as [Hn|Hn]; [left|right]; eauto.
Qed.

Lemma producers_node (hkv : list HashKeyValue) (c : list nodeAndID) :
  interleaving (producers co hkv) c ->
  (forall nai, nai ∈ c -> id nai = AsKey co (node nai))
  /\ (forall n, n ∈ map node c <-> n ∈ all_siblings co hkv).
Proof.
  intros Hil. pose proof (interleaving_elem_of _ _ Hil) as Hel.
  split.
  - intros nai Hnai. apply Hel, elem_of_producers in Hnai as [n [_ ->]]. done.
  - intros n. change (map ?f ?l) with (f <$> l). rewrite list_elem_of_fmap. split.
    + intros [nai [-> Hnai]]. apply Hel, elem_of_producers in Hnai as [n' [Hn' ->]]. done.
    + intros Hn. exists {| id := AsKey co n; node := n |}. split; [done|].
      apply Hel, elem_of_producers. eauto.
Qed.

(** The ids of one execution: no id twice, and exactly the siblings of the
    batch. *)
Lemma calcAllSiblingsParallel_spec (treeDepth : Z) (hkv : list HashKeyValue)
      (c : list nodeAndID) :
  (forall a b, AsKey co a = AsKey co b -> a = b) ->
  interleaving (producers co hkv) c ->
  NoDup (calcAllSiblingsParallel treeDepth hkv c)
  /\ forall n, n ∈ calcAllSiblingsParallel treeDepth hkv c
               <-> n ∈ all_siblings co hkv.
Proof.
  intros Hinj Hil. destruct (producers_node hkv c Hil) as [Hid Hnodes].
  unfold calcAllSiblingsParallel.
  destruct (consume_spec c ∅ []) as (H1 & H2 & H3).
  - intros k. simpl. rewrite lookup_empty. split; [intros [? ?]; done|intros H; inversion H].
  - constructor.
  - done.
  - split; [now apply (NoDup_fmap_1 (AsKey co))|].
    intros n. split.
    + intros Hn. destruct (H3 n Hn) as [Hn'|Hn']; [inversion Hn'|]. now apply Hnodes.
    + intros Hn. apply Hnodes in Hn.
      assert (Hk : AsKey co n ∈ map (AsKey co) (consume c ∅ [])).
      { apply H2. right. change (map ?f ?l) with (f <$> l) in *.
        apply list_elem_of_fmap in Hn as [nai [-> Hnai]].
        apply list_elem_of_fmap. exists nai. split; [|done]. symmetry. now apply Hid. }
      change (map ?f ?l) with (f <$> l) in Hk.
      apply list_elem_of_fmap in Hk as [n' [Hk Hn']].
      now rewrite (Hinj _ _ Hk).
Qed.

(** *** Writes *)

(** C2.  Once [SetLeaves] has its transaction and the transaction reports
    the write revision [writeRev]: a non-zero expected revision that differs
    from [writeRev] makes the call fail with [FailedPrecondition]; the calls
    made are the counter, the tree lookup, begin, the write-revision query
    and close, so no leaf is set, no signed root is stored and nothing is
    committed.  An expected revision of zero asserts nothing: the call goes
    on to write the leaves and update the tree at [writeRev], whatever it
    is. *)
Theorem expected_revision_asserted (req : SetMapLeavesRequest)
        (c : list nodeAndID) (w : World S NodeID) (u : unit) (tree : Tree)
        (hasher : MapHasher) (tx : TX) (writeRev : Z) (s0 s1 s2 s3 : S) :
  CounterAdd co "set_leaves" (len (sl_Leaves req)) (store w) = (u, s0) ->
  GetTree co (sl_MapId req) optsMapWrite s0 = (inl tree, s1) ->
  NewMapHasher co (HashStrategy tree) = inl hasher ->
  validateIndices (Size hasher) (len (sl_Leaves req)) (leaf_index_at (sl_Leaves req))
  = None ->
  Begin co tree s1 = (inl tx, s2) ->
  WriteRevision co tx s2 = (inl writeRev, s3) ->
  let called :=
    trace w ++ [EvCounterAdd "set_leaves" (len (sl_Leaves req));
                EvGetTree (sl_MapId req) optsMapWrite; EvBegin tree;
                EvWriteRevision tx] in
  let leaves := map (set_LeafHash hasher tree) (sl_Leaves req) in
  let hkv := map (fun l => {| HashedKey := Index l; HashedValue := LeafHash l |})
                 leaves in
  (sl_Revision req <> 0 -> writeRev <> sl_Revision req ->
   forall cr s4, Close co tx s3 = (cr, s4) ->
     SetLeaves co opts req c w
     = (Fail (StatusErrorf FailedPrecondition "can't write to revision %v"
                [ArgInt (sl_Revision req)]),
        {| store := s4; trace := called ++ [EvClose tx] |})
     /\ status_Code (Some (StatusErrorf FailedPrecondition "can't write to revision %v"
                             [ArgInt (sl_Revision req)])) = FailedPrecondition)
  /\ (sl_Revision req = 0 ->
      SetLeaves co opts req c w
      = defer (closeAndLog co tx)
          (let* newRoot :=
             (let* _ := writeLeaves co tx leaves in
              updateTree co opts tree hasher tx hkv (sl_Metadata req) writeRev c) in
           let* _ := call_err (EvCommit tx) (Commit co tx) in
           ret newRoot)
          {| store := s3; trace := called |}).
Proof.
  intros HC HT HH HV HB HW called leaves hkv. subst called leaves hkv. split.
  - intros Hnz Hne cr s4 HCl. split; [|done].
    unfold SetLeaves, ReadWriteTransaction, SetLeaves_tx, getWriteRevision.
    unfold_server. simpl. rewrite HC. simpl. rewrite HT. simpl. rewrite HH, HV. simpl.
    rewrite HB. simpl. rewrite HW. simpl.
    apply Z.eqb_neq in Hnz, Hne. rewrite Hnz, Hne. simpl. rewrite HCl.
    now rewrite <- !app_assoc.
  - intros Hz.
    unfold SetLeaves, ReadWriteTransaction, SetLeaves_tx, getWriteRevision.
    unfold_server. simpl. rewrite HC. simpl. rewrite HT. simpl. rewrite HH, HV. simpl.
    rewrite HB. simpl. rewrite HW. simpl. rewrite Hz. simpl.
    rewrite <- !app_assoc. simpl.
    repeat match goal with
           | |- context [match ?e with _ => _ end] => destruct_innermost e
           end; done.
Qed.

(** C3.  Once [InitMap] has its transaction and [LatestSignedMapRoot] has
    answered: if a signed root with a map root is present, the call fails
    with [AlreadyExists] and stores nothing; if none is present, and clock,
    signer, store and commit succeed, the call stores and returns the signer's
    envelope of the root with revision 0, empty metadata and root hash
    [HashEmpty(mapID, make([]byte, Size), BitLen)]. *)
Theorem init_map_once (req : InitMapRequest) (w : World S NodeID) (tree : Tree)
        (hasher : MapHasher) (tx : TX) (latest : option SignedMapRoot)
        (err : option error) (s1 s2 s3 : S) :
  GetTree co (im_MapId req) optsMapInit (store w) = (inl tree, s1) ->
  NewMapHasher co (HashStrategy tree) = inl hasher ->
  Begin co tree s1 = (inl tx, s2) ->
  LatestSignedMapRoot co tx s2 = ((latest, err), s3) ->
  err = None \/ err = Some ErrTreeNeedsInit ->
  let called :=
    trace w ++ [EvGetTree (im_MapId req) optsMapInit; EvBegin tree;
                EvLatestSignedMapRoot tx] in
  (forall root b cr s4,
      latest = Some root -> MapRoot root = Some b ->
      Close co tx s3 = (cr, s4) ->
      InitMap co req w
      = (Fail (StatusErrorf AlreadyExists "map is already initialised" []),
         {| store := s4; trace := called ++ [EvClose tx] |})
      /\ status_Code (Some (StatusErrorf AlreadyExists "map is already initialised" []))
         = AlreadyExists)
  /\ (forall now signer root cr s4 s5 s6 s7 s8 s9,
         GetMapRoot latest = None ->
         Now co s3 = (now, s4) ->
         Signer co tree s4 = (inl signer, s5) ->
         SignMapRoot co signer (rev0_root hasher (im_MapId req) now) s5
         = (inl root, s6) ->
         StoreSignedMapRoot co tx root s6 = (None, s7) ->
         Commit co tx s7 = (None, s8) ->
         Close co tx s8 = (cr, s9) ->
         InitMap co req w
         = (Ret root,
            {| store := s9;
               trace := called
                        ++ [EvNow; EvSigner tree;
                            EvSignMapRoot signer (rev0_root hasher (im_MapId req) now);
                            EvStoreSignedMapRoot tx root; EvCommit tx; EvClose tx] |})
         /\ Revision (rev0_root hasher (im_MapId req) now) = 0
         /\ Metadata (rev0_root hasher (im_MapId req) now) = []
         /\ RootHash (rev0_root hasher (im_MapId req) now)
            = HashEmpty hasher (im_MapId req) (make_bytes (Size hasher)) (BitLen hasher)).
Proof.
  intros HT HH HB HL Herr called. subst called. split.
  - intros root b cr s4 -> Hb HCl. split; [|done].
    unfold InitMap, ReadWriteTransaction, InitMap_tx. unfold_server. simpl.
    rewrite HT. simpl. rewrite HH. simpl. rewrite HB. simpl. rewrite HL. simpl.
    rewrite Hb. destruct Herr as [-> | ->]; simpl; rewrite HCl;
      now rewrite <- !app_assoc.
  - intros now signer root cr s4 s5 s6 s7 s8 s9 Hnone HN HS HSg HSt HCo HCl.
    split; [|done].
    unfold InitMap, ReadWriteTransaction, InitMap_tx, makeSignedMapRoot.
    unfold_server. simpl.
    rewrite HT. simpl. rewrite HH. simpl. rewrite HB. simpl. rewrite HL. simpl.
    rewrite Hnone.
    change {| RootHash := HashEmpty hasher (im_MapId req) (make_bytes (Size hasher))
                            (BitLen hasher);
              TimestampNanos := to_uint64 now;
              Revision := to_uint64 0;
              Metadata := [] |}
      with (rev0_root hasher (im_MapId req) now) in *.
    destruct Herr as [-> | ->]; simpl; rewrite HN; simpl.
    all: change {| RootHash := HashEmpty hasher (im_MapId req) (make_bytes (Size hasher))
                            (BitLen hasher);
              TimestampNanos := to_uint64 now;
              Revision := to_uint64 0;
              Metadata := [] |}
      with (rev0_root hasher (im_MapId req) now).
    all: rewrite HS; simpl; rewrite HSg; simpl; rewrite HSt; simpl; rewrite HCo; simpl.
    all: rewrite HCl; now rewrite <- !app_assoc.
Qed.

(** C7.  [updateTree] makes the calls of the preload exactly when both
    options are set.  When the transaction reports the read revision [r],
    [doPreload] makes two calls: the read-revision query and one
    [GetMerkleNodes] at [r].  For every execution of the producers, with node
    keys that identify nodes, the ids passed hold no id twice and are exactly
    the siblings on the paths of the batch's keys; two executions pass the
    same ids up to order. *)
Theorem preload_reads_all_siblings_once (tree : Tree) (hasher : MapHasher) (tx : TX)
        (hkv : list HashKeyValue) (metadata : bytes) (rev treeDepth : Z)
        (c : list nodeAndID) (w : World S NodeID) (r : Z) (s1 : S) :
  (forall a b, AsKey co a = AsKey co b -> a = b) ->
  interleaving (producers co hkv) c ->
  ReadRevision co tx (store w) = (inl r, s1) ->
  let nids := calcAllSiblingsParallel treeDepth hkv c in
  existsb is_preload_event
    (new_events (updateTree co opts tree hasher tx hkv metadata rev c) w)
  = UseSingleTransaction opts && UseLargePreload opts
  /\ (forall res s2,
         GetMerkleNodes co tx r nids s1 = (res, s2) ->
         doPreload co tx treeDepth hkv c w
         = (match res with None => Ret tt | Some e => Fail e end,
            {| store := s2;
               trace := trace w ++ [EvReadRevision tx; EvGetMerkleNodes tx r nids] |}))
  /\ NoDup nids
  /\ (forall n, n ∈ nids <-> n ∈ all_siblings co hkv)
  /\ (forall c', interleaving (producers co hkv) c' ->
                 calcAllSiblingsParallel treeDepth hkv c' ≡ₚ nids).
Proof.
  intros Hinj Hil HR nids.
  destruct (calcAllSiblingsParallel_spec treeDepth hkv c Hinj Hil) as [Hnd Hel].
  split; [|split; [|split; [done|split; [done|]]]].
  - unfold new_events, updateTree, doPreload, makeSignedMapRoot. unfold_server.
    destruct (UseSingleTransaction opts), (UseLargePreload opts); simpl.
    all: repeat match goal with
                | |- context [match ?e with _ => _ end] => destruct_innermost e; simpl
                end.
    all: rewrite <- ?app_assoc, drop_app_length; reflexivity.
  - intros res s2 HG. unfold doPreload. unfold_server. simpl. rewrite HR. simpl.
    fold nids. rewrite HG. destruct res; simpl; now rewrite <- !app_assoc.
  - intros c' Hil'.
    destruct (calcAllSiblingsParallel_spec treeDepth hkv c' Hinj Hil') as [Hnd' Hel'].
    apply NoDup_Permutation; [done..|]. intros n. subst nids. now rewrite Hel', Hel.
Qed.

(** C10.  Validation asks nothing of the number of indices: for zero
    indices it succeeds.  A [SetLeaves] request without leaves therefore
    goes on as the pipeline does for any batch: tree lookup, transaction,
    write-revision check, no [Set] call, and the tree update with an empty
    batch. *)
Theorem empty_batch_is_written (req : SetMapLeavesRequest) (c : list nodeAndID)
        (w : World S NodeID) :
  sl_Leaves req = [] ->
  (forall size indices, validateIndices size (len (sl_Leaves req)) indices = None)
  /\ SetLeaves co opts req c w
     = (let* _ := call (EvCounterAdd "set_leaves" 0) (CounterAdd co "set_leaves" 0) in
        let* (tree, hasher) := getTreeAndHasher co (sl_MapId req) optsMapWrite in
        let* newRoot :=
          ReadWriteTransaction co tree
            (fun tx =>
               let* writeRev := getWriteRevision co tx (sl_Revision req) in
               updateTree co opts tree hasher tx [] (sl_Metadata req) writeRev c) in
        ret newRoot) w
  /\ (forall u tree hasher tx writeRev root s0 s1 s2 s3 w4 s5 cr s6,
         CounterAdd co "set_leaves" 0 (store w) = (u, s0) ->
         GetTree co (sl_MapId req) optsMapWrite s0 = (inl tree, s1) ->
         NewMapHasher co (HashStrategy tree) = inl hasher ->
         Begin co tree s1 = (inl tx, s2) ->
         WriteRevision co tx s2 = (inl writeRev, s3) ->
         sl_Revision req = 0 \/ writeRev = sl_Revision req ->
         updateTree co opts tree hasher tx [] (sl_Metadata req) writeRev c
           {| store := s3;
              trace := trace w ++ [EvCounterAdd "set_leaves" 0;
                                   EvGetTree (sl_MapId req) optsMapWrite;
                                   EvBegin tree; EvWriteRevision tx] |}
         = (Ret root, w4) ->
         Commit co tx (store w4) = (None, s5) ->
         Close co tx s5 = (cr, s6) ->
         SetLeaves co opts req c w
         = (Ret root,
            {| store := s6; trace := trace w4 ++ [EvCommit tx; EvClose tx] |})).
Proof.
  intros Hempty. split; [|split].
  - intros size indices. now rewrite Hempty.
  - unfold SetLeaves, SetLeaves_tx. rewrite Hempty. reflexivity.
  - intros u tree hasher tx writeRev root s0 s1 s2 s3 w4 s5 cr s6
           HC HT HH HB HW Hrev HU HCo HCl.
    unfold SetLeaves, ReadWriteTransaction, SetLeaves_tx, getWriteRevision.
    rewrite Hempty. unfold validateIndices, len. simpl. unfold_server. simpl.
    change (Z.of_nat 0) with 0. rewrite HC. simpl. rewrite HT. simpl. rewrite HH. simpl. rewrite HB. simpl.
    rewrite HW. simpl.
    assert (Hok : negb (sl_Revision req =? 0) && negb (writeRev =? sl_Revision req)
                  = false).
    { destruct Hrev as [-> | ->]; [done|]. rewrite Z.eqb_refl.
      now destruct (sl_Revision req =? 0). }
    rewrite Hok. simpl. rewrite <- !app_assoc. simpl. rewrite HU. simpl.
    rewrite HCo. simpl. rewrite HCl. now rewrite <- !app_assoc.
Qed.

End Writes.

End ServerFacts.

(** ** The load generator *)

Module HammerFacts.

Import Hammer.

Lemma to_int64_mod (z : Z) : to_int64 z mod 2 ^ 64 = z mod 2 ^ 64.
Proof.
  unfold to_int64. rewrite Zminus_mod_idemp_l. f_equal. lia.
Qed.

Lemma to_int64_range (z : Z) : - 2 ^ 63 <= to_int64 z < 2 ^ 63.
Proof.
  unfold to_int64. pose proof (Z.mod_pos_bound (z + 2 ^ 63) (2 ^ 64)). lia.
Qed.

Lemma congruent_small (a b : Z) :
  a mod 2 ^ 64 = b mod 2 ^ 64 ->
  - 2 ^ 63 <= a < 2 ^ 63 -> - 2 ^ 63 <= b < 2 ^ 63 -> a = b.
Proof.
  intros Hmod Ha Hb.
  pose proof (Z.div_mod a (2 ^ 64)) as Ea. pose proof (Z.div_mod b (2 ^ 64)) as Eb.
  pose proof (Z.mod_pos_bound a (2 ^ 64)). pose proof (Z.mod_pos_bound b (2 ^ 64)).
  lia.
Qed.

Section Bias.

Variable hb : MapBias.

Lemma add_biases_mod (t : Z) (eps : list MapEntrypointName) :
  add_biases hb t eps mod 2 ^ 64 = (t + exact_sum hb eps) mod 2 ^ 64.
Proof.
  revert t. induction eps as [|ep eps IH]; intros t; simpl.
  - f_equal. lia.
  - unfold add_biases in *. simpl. rewrite IH.
    rewrite <- Zplus_mod_idemp_l, to_int64_mod, Zplus_mod_idemp_l. f_equal. lia.
Qed.

Lemma which_after_mod (which : Z) (eps : list MapEntrypointName) :
  which_after hb which eps mod 2 ^ 64 = (which - exact_sum hb eps) mod 2 ^ 64.
Proof.
  revert which. induction eps as [|ep eps IH]; intros which; simpl.
  - f_equal. lia.
  - unfold which_after in *. simpl. rewrite IH.
    rewrite <- Zminus_mod_idemp_l, to_int64_mod, Zminus_mod_idemp_l. f_equal. lia.
Qed.

Lemma which_after_range (which : Z) (eps : list MapEntrypointName) :
  eps <> [] -> - 2 ^ 63 <= which_after hb which eps < 2 ^ 63.
Proof.
  intros Hne. destruct eps as [|ep eps _] using rev_ind; [done|].
  unfold which_after. rewrite foldl_snoc. apply to_int64_range.
Qed.

Lemma add_biases_range (t : Z) (eps : list MapEntrypointName) :
  eps <> [] -> - 2 ^ 63 <= add_biases hb t eps < 2 ^ 63.
Proof.
  intros Hne. destruct eps as [|ep eps _] using rev_ind; [done|].
  unfold add_biases. rewrite foldl_snoc. apply to_int64_range.
Qed.

(** The loop returns before its end when [which] ends up negative. *)
Lemma pick_returns (which : Z) (eps : list MapEntrypointName) :
  0 <= which ->
  which_after hb which eps < 0 ->
  exists ep, pick hb which eps = Some ep /\ ep ∈ eps.
Proof.
  revert which. induction eps as [|ep eps IH]; intros which Hpos Hneg; simpl in *.
  - unfold which_after in Hneg. simpl in Hneg. lia.
  - destruct (to_int64 (which - bias_of hb ep) <? 0) eqn:E.
    + exists ep. split; [done|]. now left.
    + apply Z.ltb_ge in E. destruct (IH _ E Hneg) as [ep' [Hp Hin]].
      exists ep'. split; [done|]. now right.
Qed.

Lemma bias_sum_mod :
  bias_sum hb mod 2 ^ 64 = exact_sum hb mapEntrypoints mod 2 ^ 64.
Proof.
  unfold bias_sum. rewrite add_biases_mod. f_equal.
Qed.

End Bias.

Lemma pick_ext (hb hb' : MapBias) (which : Z) (eps : list MapEntrypointName) :
  Bias hb' = Bias hb -> pick hb' which eps = pick hb which eps.
Proof.
  intros HB. revert which. induction eps as [|ep eps IH]; intros which; simpl; [done|].
  unfold bias_of. rewrite HB. destruct (_ <? 0); [done|]. apply IH.
Qed.

(** C9 (amended).  When the cached [total] is unset or equals the sum of
    the five biases, and that sum, as the code computes it, is positive, then
    for every draw of [Intn] within its contract [choose] returns one of the
    five entrypoints and reaches neither panic; it leaves [total] equal to
    the sum and the biases as they were, so the same holds for the next
    call. *)
Theorem choose_returns_entrypoint (hb : MapBias) (Intn : Z -> Z) :
  (forall n, 0 < n -> 0 <= Intn n < n) ->
  total_fresh hb ->
  0 < bias_sum hb ->
  exists ep,
    fst (choose hb Intn) = Returns ep
    /\ ep ∈ mapEntrypoints
    /\ Bias (snd (choose hb Intn)) = Bias hb
    /\ total (snd (choose hb Intn)) = bias_sum hb.
Proof.
  intros HIntn Hfresh Hpos.
  set (hb' := if total hb =? 0 then
                {| Bias := Bias hb;
                   total := add_biases hb (total hb) mapEntrypoints;
                   InvalidChance := InvalidChance hb |}
              else hb).
  assert (HB : Bias hb' = Bias hb) by (subst hb'; now destruct (total hb =? 0)).
  assert (HT : total hb' = bias_sum hb).
  { subst hb'. destruct (total hb =? 0) eqn:E.
    - apply Z.eqb_eq in E. cbn [total]. rewrite E. unfold bias_sum. exact eq_refl.
    - apply Z.eqb_neq in E. destruct Hfresh as [H0|H0]; [contradiction|exact H0]. }
  assert (Hrange : - 2 ^ 63 <= bias_sum hb < 2 ^ 63).
  { apply add_biases_range. discriminate. }
  pose proof (HIntn (total hb')) as Hdraw. rewrite HT in Hdraw. specialize (Hdraw Hpos).
  destruct (pick_returns hb (Intn (bias_sum hb)) mapEntrypoints) as [ep [Hp Hin]].
  { lia. }
  { pose proof (which_after_mod hb (Intn (bias_sum hb)) mapEntrypoints) as Hw.
    pose proof (bias_sum_mod hb) as Hs.
    assert (Heq : which_after hb (Intn (bias_sum hb)) mapEntrypoints
                  = Intn (bias_sum hb) - bias_sum hb).
    { apply congruent_small; [|apply which_after_range; discriminate|lia].
      rewrite Hw, <- Zminus_mod_idemp_r, <- Hs, Zminus_mod_idemp_r. reflexivity. }
    lia. }
  exists ep. unfold choose. fold hb'. rewrite HT.
  destruct (bias_sum hb <=? 0) eqn:E; [apply Z.leb_le in E; lia|].
  rewrite (pick_ext hb hb') by done. rewrite Hp. simpl. done.
Qed.

End HammerFacts.

(** ** Runs on the in-memory instance *)

Module Examples.

Import Server ServerSpec InMemory ValidateSpec.

(** C1, as stated, fails.  With one-byte indices, in [01; 0203; 01] the
    duplicated index has its second occurrence at position 2, and validation
    names position 1, the wrong-length index before it.  In [01; 01; 0203]
    the first index of the wrong length is at position 2, and validation
    names position 1, the duplicate before it. *)
Lemma validation_names_earlier_offender :
  (let l := [[Byte.x01]; [Byte.x02; Byte.x03]; [Byte.x01]] in
   l !! 0%nat = l !! 2%nat
   /\ l !! 1%nat <> l !! 0%nat
   /\ validate_request 1 l
      = Some (StatusErrorf InvalidArgument
                "index at position %d has wrong length: got=%d,want=%d"
                [ArgInt 1; ArgInt 2; ArgInt 1]))
  /\ (let l := [[Byte.x01]; [Byte.x01]; [Byte.x02; Byte.x03]] in
      len ([Byte.x01] : bytes) = 1
      /\ len ([Byte.x02; Byte.x03] : bytes) <> 1
      /\ validate_request 1 l
         = Some (StatusErrorf InvalidArgument
                   "duplicate index detected at position %d" [ArgInt 1])).
Proof.
  split; simpl; (split; [reflexivity|split; [discriminate|vm_compute; reflexivity]]).
Qed.

(** C2 on the store that holds revision 0 only: expecting revision 5 fails. *)
Lemma expected_revision_asserted_witness :
  SetLeaves collaborators both_opts reqStale [] world1'
  = (Fail (StatusErrorf FailedPrecondition "can't write to revision %v" [ArgInt 5]),
     {| store := store world1;
        trace := [EvCounterAdd "set_leaves" 1; EvGetTree 7 optsMapWrite;
                  EvBegin tree7; EvWriteRevision 2; EvClose 2] |}).
Proof.
  pose proof (ServerFacts.expected_revision_asserted collaborators both_opts
                reqStale [] world1' tt tree7 hasher 2 1
                (store world1) (store world1) (store world1) (store world1)
                eq_refl eq_refl eq_refl eq_refl eq_refl eq_refl) as H.
  cbv zeta in H. destruct H as [H _].
  destruct (H ltac:(discriminate) ltac:(discriminate) None (store world1) eq_refl)
    as [E _].
  exact E.
Defined.

(** C3 on the fresh store: [InitMap] stores and returns the root of
    revision 0; on the store it leaves behind, [InitMap] fails. *)
Lemma init_map_once_witness :
  InitMap collaborators {| im_MapId := 7 |} world0
  = (Ret {| MapRoot := Some [Byte.x00; Byte.x07; Byte.x08]; Signature := [] |}, world1)
  /\ InitMap collaborators {| im_MapId := 7 |} world1'
     = (Fail (StatusErrorf AlreadyExists "map is already initialised" []),
        {| store := store world1;
           trace := [EvGetTree 7 optsMapInit; EvBegin tree7;
                     EvLatestSignedMapRoot 2; EvClose 2] |}).
Proof.
  split.
  - pose proof (ServerFacts.init_map_once collaborators {| im_MapId := 7 |} world0
                  tree7 hasher 2 None (Some ErrTreeNeedsInit) fresh fresh fresh
                  eq_refl eq_refl eq_refl eq_refl (or_intror eq_refl)) as H.
    cbv zeta in H. destruct H as [_ H].
    eapply proj1. eapply H; reflexivity.
  - pose proof (ServerFacts.init_map_once collaborators {| im_MapId := 7 |} world1'
                  tree7 hasher 2
                  (Some {| MapRoot := Some [Byte.x00; Byte.x07; Byte.x08];
                           Signature := [] |})
                  None (store world1) (store world1) (store world1)
                  eq_refl eq_refl eq_refl eq_refl (or_introl eq_refl)) as H.
    cbv zeta in H. destruct H as [H _].
    eapply proj1. eapply H; reflexivity.
Defined.

(** C4 on the store with one leaf: the read of a written and of an
    unwritten index succeeds with two inclusions. *)
Lemma read_one_inclusion_per_index_witness :
  exists rsp w',
    run_read collaborators sched0 (CallGetLeaves readBoth) world2' = (Ret rsp, w')
    /\ Leaf <$> rsp_MapLeafInclusion rsp
       = [Some {| Index := [Byte.x01];
                  LeafHash := [Byte.x07; Byte.x01; Byte.x2a];
                  LeafValue := [Byte.x2a]; ExtraData := [] |};
          Some (empty_leaf [Byte.x02])]
    /\ exists tx rev hasher stored proofs s1 s1' s2 s2',
         Get collaborators tx rev (gl_Index readBoth) s1 = (inl stored, s1')
         /\ BatchInclusionProof collaborators hasher tx rev rev (gl_Index readBoth) s2
            = (inl proofs, s2')
         /\ s2 = s1'
         /\ EvGet tx rev (gl_Index readBoth) ∈ trace w'
         /\ EvBatchInclusionProof tx rev rev (gl_Index readBoth) ∈ trace w'
         /\ length (rsp_MapLeafInclusion rsp) = length (gl_Index readBoth)
         /\ forall (i : nat) (index : bytes),
              gl_Index readBoth !! i = Some index ->
              exists leaf,
                rsp_MapLeafInclusion rsp !! i
                = Some {| Leaf := Some leaf;
                          Inclusion := default [] (proofs !! string_of_bytes index) |}
                /\ Index leaf = index
                /\ (leaf ∈ stored
                    \/ ((forall l, l ∈ stored -> Index l <> index)
                        /\ leaf = empty_leaf index)).
Proof.
  eassert (Hrun : run_read collaborators sched0 (CallGetLeaves readBoth) world2'
                  = (Ret _, _)) by (vm_compute; reflexivity).
  do 2 eexists. split; [exact Hrun|]. split; [reflexivity|].
  exact (ServerFacts.read_one_inclusion_per_index collaborators sched0
           (CallGetLeaves readBoth) world2' _ _ Hrun).
Defined.

(** C5 on the store with one leaf: revision -1 is refused with the world
    untouched. *)
Lemma negative_revision_fails_first_witness :
  GetLeavesByRevision collaborators sched0 readNegative world2'
  = (Fail (FmtErrorf "map revision %d must be >= 0" [ArgInt (-1)]), world2')
  /\ GetLeavesByRevisionNoProof collaborators readNegative world2'
     = (Fail (FmtErrorf "map revision %d must be >= 0" [ArgInt (-1)]), world2')
  /\ GetSignedMapRootByRevision collaborators rootNegative world2'
     = (Fail (FmtErrorf "map revision %d must be >= 0" [ArgInt (-1)]), world2')
  /\ status_Code (Some (FmtErrorf "map revision %d must be >= 0" [ArgInt (-1)]))
     = Unknown.
Proof.
  exact (ServerFacts.negative_revision_fails_first collaborators sched0
           readNegative rootNegative world2' eq_refl eq_refl).
Defined.

(** C5, as stated, fails: the error of a negative revision is not of kind
    [InvalidArgument] in any of the three calls. *)
Lemma negative_revision_error_has_no_kind :
  (exists e, fst (GetLeavesByRevision collaborators sched0 readNegative world2') = Fail e
             /\ status_Code (Some e) <> InvalidArgument)
  /\ (exists e, fst (GetLeavesByRevisionNoProof collaborators readNegative world2') = Fail e
                /\ status_Code (Some e) <> InvalidArgument)
  /\ (exists e, fst (GetSignedMapRootByRevision collaborators rootNegative world2') = Fail e
                /\ status_Code (Some e) <> InvalidArgument).
Proof.
  repeat split; eexists; (split; [reflexivity|discriminate]).
Qed.

(** C6 on the store with one leaf, whose stored hash is not empty. *)
Lemma no_proof_leaf_hash_empty_witness :
  exists leaves w',
    GetLeavesByRevisionNoProof collaborators readBothAt1 world2' = (Ret leaves, w')
    /\ leaves = [{| Index := [Byte.x01]; LeafHash := [];
                    LeafValue := [Byte.x2a]; ExtraData := [] |}]
    /\ exists tx s s' stored,
         Get collaborators tx 1 [[Byte.x01]; [Byte.x02]] s = (inl stored, s')
         /\ EvGet tx 1 [[Byte.x01]; [Byte.x02]] ∈ trace w'
         /\ Forall (fun l => LeafHash l = []) leaves
         /\ Forall2 same_but_hash leaves stored.
Proof.
  eassert (Hrun : GetLeavesByRevisionNoProof collaborators readBothAt1 world2'
                  = (Ret _, _)) by (vm_compute; reflexivity).
  do 2 eexists. split; [exact Hrun|]. split; [reflexivity|].
  exact (ServerFacts.no_proof_leaf_hash_empty collaborators readBothAt1 world2' _ _
           Hrun).
Defined.

(** C8 on the store with one leaf, proofs fetched first: both fetches are
    made at revision 1, the revision of the root returned. *)
Lemma read_fetches_at_root_revision_witness :
  exists rsp w',
    run_read collaborators {| leaves_call_first := false; leaves_err_first := true |}
      (CallGetLeaves readBoth) world2' = (Ret rsp, w')
    /\ trace w'
       = [EvGetTree 7 optsMapRead; EvCounterAdd "get_leaves" 2;
          EvSnapshotForTree tree7; EvLatestSignedMapRoot 1;
          EvBatchInclusionProof 1 1 1 [[Byte.x01]; [Byte.x02]];
          EvGet 1 1 [[Byte.x01]; [Byte.x02]]; EvCommit 1; EvClose 1]
    /\ exists mapRoot tree tx,
         UnmarshalBinary collaborators (default [] (MapRoot (rsp_MapRoot rsp)))
         = inl mapRoot
         /\ to_uint64 (to_int64 (Revision mapRoot)) = to_uint64 (Revision mapRoot)
         /\ (0 <= Revision mapRoot < 2 ^ 63
             -> to_int64 (Revision mapRoot) = Revision mapRoot)
         /\ trace w'
            = trace world2'
              ++ [EvGetTree 7 optsMapRead; EvCounterAdd "get_leaves" 2;
                  EvSnapshotForTree tree; root_event tx mostRecentRevision]
              ++ fetch_events {| leaves_call_first := false; leaves_err_first := true |}
                   tx (to_int64 (Revision mapRoot)) [[Byte.x01]; [Byte.x02]]
              ++ [EvCommit tx; EvClose tx].
Proof.
  eassert (Hrun : run_read collaborators
                    {| leaves_call_first := false; leaves_err_first := true |}
                    (CallGetLeaves readBoth) world2'
                  = (Ret _, _)) by (vm_compute; reflexivity).
  do 2 eexists. split; [exact Hrun|]. split; [reflexivity|].
  exact (ServerFacts.read_fetches_at_root_revision collaborators
           {| leaves_call_first := false; leaves_err_first := true |}
           (CallGetLeaves readBoth) world2' _ _ Hrun).
Defined.

(** C10 on the store that holds revision 0: the write without leaves is
    committed as revision 1. *)
Lemma empty_batch_is_written_witness :
  exists w',
    SetLeaves collaborators both_opts reqEmpty [] world1'
    = (Ret {| MapRoot := Some [Byte.x01; Byte.x01]; Signature := [] |}, w')
    /\ trace w'
       = [EvCounterAdd "set_leaves" 0; EvGetTree 7 optsMapWrite; EvBegin tree7;
          EvWriteRevision 2; EvReadRevision 2; EvGetMerkleNodes 2 0 [];
          EvNewSparseMerkleTreeWriter 7 1 (singleTXRunner 2);
          EvWriterSetLeaves 3 []; EvCalculateRoot 3; EvNow; EvSigner tree7;
          EvSignMapRoot 4 {| RootHash := [Byte.x01]; TimestampNanos := 1001;
                             Revision := 1; Metadata := [] |};
          EvStoreSignedMapRoot 2
            {| MapRoot := Some [Byte.x01; Byte.x01]; Signature := [] |};
          EvCommit 2; EvClose 2].
Proof.
  destruct (ServerFacts.empty_batch_is_written collaborators both_opts reqEmpty []
              world1' eq_refl) as (_ & _ & H).
  eexists. split.
  - eapply H; try reflexivity. now left.
  - reflexivity.
Defined.

Lemma key_of_inj (a b : node_id) : key_of a = key_of b -> a = b.
Proof.
  unfold key_of. revert b. induction a as [|x a IH]; intros [|y b] H; simpl in H;
    try discriminate; [done|].
  injection H as Hc Ht. f_equal; [|now apply IH].
  destruct x, y; done.
Qed.

(** C7 on a batch of two keys whose producers take turns. *)
Lemma preload_reads_all_siblings_once_witness :
  let nids := calcAllSiblingsParallel 8 hkv2 channel2 in
  doPreload collaborators 2 8 hkv2 channel2 world2'
  = (Ret tt,
     {| store := store world2;
        trace := [EvReadRevision 2; EvGetMerkleNodes 2 1 nids] |})
  /\ NoDup nids
  /\ (forall n, n ∈ nids <-> n ∈ all_siblings collaborators hkv2)
  /\ calcAllSiblingsParallel 8 hkv2 (sequential_channel collaborators hkv2) ≡ₚ nids.
Proof.
  assert (Hil : interleaving (producers collaborators hkv2) channel2).
  { apply ServerFacts.interleaving_alternate. }
  destruct (ServerFacts.preload_reads_all_siblings_once collaborators both_opts
              tree7 hasher 2 hkv2 [] 2 8 channel2 world2' 1 (store world2)
              key_of_inj Hil eq_refl) as (_ & H2 & H3 & H4 & H5).
  split; [|split; [exact H3|split; [exact H4|]]].
  - apply (H2 None (store world2)). reflexivity.
  - apply H5. apply ServerFacts.interleaving_concat.
Defined.

(** C9 on biases 2 and 1 with the largest draw. *)
Lemma choose_returns_entrypoint_witness :
  exists ep,
    fst (Hammer.choose Hammer.two_to_one (fun n => n - 1)) = Hammer.Returns ep
    /\ ep ∈ Hammer.mapEntrypoints
    /\ Hammer.Bias (snd (Hammer.choose Hammer.two_to_one (fun n => n - 1)))
       = Hammer.Bias Hammer.two_to_one
    /\ Hammer.total (snd (Hammer.choose Hammer.two_to_one (fun n => n - 1)))
       = Hammer.bias_sum Hammer.two_to_one.
Proof.
  apply (HammerFacts.choose_returns_entrypoint Hammer.two_to_one (fun n => n - 1)).
  - intros n Hn. lia.
  - left. reflexivity.
  - vm_compute. reflexivity.
Defined.

(** C9, as stated, fails: the biases of [stale] sum to 3, its cached total
    is 10, and on the draw 5, which [Intn 10] can return, [choose] reaches the
    panic at its end. *)
Lemma choose_panics_on_stale_total :
  Hammer.bias_sum Hammer.stale = 3
  /\ 0 <= 5 < Hammer.total Hammer.stale
  /\ fst (Hammer.choose Hammer.stale (fun _ => 5))
     = Hammer.Panics "random choice out of range".
Proof.
  split; [vm_compute; reflexivity|]. split; [simpl; lia|].
  vm_compute. reflexivity.
Qed.

End Examples.

(** ** More on index validation *)

Module ValidateMoreFacts.

Import ValidateSpec ValidateFacts.

(** A failure within the first [a] rounds is the failure of a longer run. *)
Lemma loop_failure_stays (size : Z) (f : Z -> bytes) (a b : nat) (i : Z)
      (seen : gmap string bool) (e : error) :
  validateIndices_loop size f a i seen = Some e ->
  validateIndices_loop size f (a + b) i seen = Some e.
Proof.
  revert i seen. induction a as [|a IH]; intros i seen H; simpl in *; [done|].
  destruct (negb _); [done|]. destruct (default _ _); [done|]. now apply IH.
Qed.

Lemma index_at_app (l k : list bytes) (j : Z) :
  0 <= j < len l -> index_at (l ++ k) j = index_at l j.
Proof.
  intros Hj. unfold index_at, len in *.
  destruct (lookup_lt_is_Some_2 l (Z.to_nat j)) as [x Hx]; [lia|].
  rewrite (list_lookup_total_correct _ _ _ Hx).
  apply list_lookup_total_correct. now rewrite lookup_app_l_Some with (x := x).
Qed.

(** X16.  A rejection is final: when a request is rejected, every request
    that continues it with more indices is rejected with the same error, at
    the same position.  So a request that is accepted has only accepted
    prefixes. *)
Theorem rejection_survives_more_indices (size : Z) (l k : list bytes) (e : error) :
  validate_request size l = Some e ->
  validate_request size (l ++ k) = Some e.
Proof.
  unfold validate_request, validateIndices, len. intros H.
  rewrite length_app, !Nat2Z.id in *.
  apply loop_failure_stays.
  rewrite <- H. apply validateIndices_loop_ext. intros j Hj.
  apply index_at_app. unfold len. lia.
Qed.

(** X17.  Whether a request is accepted does not depend on the order of its
    indices. *)
Theorem acceptance_ignores_order (size : Z) (l k : list bytes) :
  l ≡ₚ k ->
  validate_request size l = None ->
  validate_request size k = None.
Proof.
  intros Hp Hl.
  pose proof (validate_request_cases size l) as Hcl. rewrite Hl in Hcl.
  destruct Hcl as [Hall Hnd].
  pose proof (validate_request_cases size k) as Hck.
  destruct (validate_request size k) as [e|]; [|done]. exfalso.
  destruct Hck as (p & x & _ & [Hoff _] & _).
  assert (Hok : Forall (fun x => len x = size) k /\ NoDup k).
  { split; [now rewrite <- Hp|now rewrite <- Hp]. }
  now apply (proj2 (no_offending_iff size k) Hok p).
Qed.

End ValidateMoreFacts.

(** ** The remaining RPCs, and the ways out of the others *)

Module ServerMoreFacts.

Import Server ServerSpec ServerMore ServerFacts.

Ltac unfold_more :=
  unfold GetLeaf, GetLeafByRevision, single_leaf, GetSignedMapRoot_rpc in *.

(** Case analysis on the next collaborator call in the goal. *)
Ltac case_goal :=
  match goal with
  | |- context [match ?e with _ => _ end] => destruct_innermost e; simpl
  end.

Section Reads.

Context {S NodeID : Type}.
Variable co : Collaborators S NodeID.

(** A read of one index answers with one inclusion. *)
Lemma read_single_length (sched : ReadSchedule) (mapID : Z) (index : bytes)
      (revision : Z) (w w' : World S NodeID) (rsp : GetMapLeavesResponse) :
  getLeavesByRevision co sched mapID [index] revision w = (Ret rsp, w') ->
  exists x, rsp_MapLeafInclusion rsp = [x].
Proof.
  intros H. apply getLeavesByRevision_success in H.
  destruct H as (tree & hasher & tx & mapRoot & stored & proofs & s1 & s1' & s2 & s2'
                 & _ & _ & _ & _ & _ & Hincl & _).
  rewrite Hincl. simpl. eauto.
Qed.

Lemma single_leaf_of_read (sched : ReadSchedule) (mapID : Z) (index : bytes)
      (revision : Z) (w : World S NodeID) :
  match (let* ret := getLeavesByRevision co sched mapID [index] revision in
         single_leaf ret) w with
  | (Ret r, w') =>
      exists rsp,
        getLeavesByRevision co sched mapID [index] revision w = (Ret rsp, w')
        /\ rsp_MapLeafInclusion rsp = [lrsp_MapLeafInclusion r]
        /\ lrsp_MapRoot r = rsp_MapRoot rsp
  | (Fail e, w') =>
      getLeavesByRevision co sched mapID [index] revision w = (Fail e, w')
  | (Panic msg, w') =>
      getLeavesByRevision co sched mapID [index] revision w = (Panic msg, w')
  end.
Proof.
  unfold bind.
  destruct (getLeavesByRevision co sched mapID [index] revision w) as [[rsp|e|msg] w']
    eqn:E; [|done|done].
  destruct (read_single_length _ _ _ _ _ _ _ E) as [x Hx].
  unfold single_leaf, len. rewrite Hx. simpl. exists rsp. now rewrite Hx.
Qed.

(** X1.  [GetLeaf] and [GetLeafByRevision] end as their read of one index
    ends: with its root and its single inclusion, with its error, or with
    its panic.  The [Internal] error for a wrong number of leaves and the
    indexing of an empty slice are never reached. *)
Theorem single_leaf_reads_follow_the_read (sched : ReadSchedule)
        (req : GetMapLeafRequest) (rreq : GetMapLeafByRevisionRequest)
        (w : World S NodeID) :
  match GetLeaf co sched req w with
  | (Ret r, w') =>
      exists rsp,
        getLeavesByRevision co sched (gf_MapId req) [gf_Index req] mostRecentRevision w
        = (Ret rsp, w')
        /\ rsp_MapLeafInclusion rsp = [lrsp_MapLeafInclusion r]
        /\ lrsp_MapRoot r = rsp_MapRoot rsp
  | (Fail e, w') =>
      getLeavesByRevision co sched (gf_MapId req) [gf_Index req] mostRecentRevision w
      = (Fail e, w')
  | (Panic msg, w') =>
      getLeavesByRevision co sched (gf_MapId req) [gf_Index req] mostRecentRevision w
      = (Panic msg, w')
  end
  /\ match GetLeafByRevision co sched rreq w with
     | (Ret r, w') =>
         exists rsp,
           getLeavesByRevision co sched (gfr_MapId rreq) [gfr_Index rreq]
             (gfr_Revision rreq) w = (Ret rsp, w')
           /\ rsp_MapLeafInclusion rsp = [lrsp_MapLeafInclusion r]
           /\ lrsp_MapRoot r = rsp_MapRoot rsp
     | (Fail e, w') =>
         getLeavesByRevision co sched (gfr_MapId rreq) [gfr_Index rreq]
           (gfr_Revision rreq) w = (Fail e, w')
     | (Panic msg, w') =>
         getLeavesByRevision co sched (gfr_MapId rreq) [gfr_Index rreq]
           (gfr_Revision rreq) w = (Panic msg, w')
     end.
Proof.
  split; apply single_leaf_of_read.
Qed.

(** X2.  [GetLeafByRevision] has no guard on the revision: with a negative
    revision it answers as [GetLeaf] does, from the latest signed root. *)
Theorem GetLeafByRevision_negative_is_latest (sched : ReadSchedule)
        (req : GetMapLeafByRevisionRequest) (w : World S NodeID) :
  gfr_Revision req < 0 ->
  GetLeafByRevision co sched req w
  = GetLeaf co sched {| gf_MapId := gfr_MapId req; gf_Index := gfr_Index req |} w.
Proof.
  intros H. unfold GetLeafByRevision, GetLeaf, getLeavesByRevision. simpl.
  destruct (gfr_Revision req) as [|p|p]; try lia. reflexivity.
Qed.

(** X3.  A read whose indices fail validation ends before a snapshot is
    opened: the only call made is the tree lookup, and the error, of kind
    [InvalidArgument], is the validation's own. *)
Theorem invalid_read_opens_no_snapshot (sched : ReadSchedule) (mapID : Z)
        (indices : list bytes) (revision : Z) (w : World S NodeID)
        (tree : Tree) (hasher : MapHasher) (s1 : S) (e : error) :
  GetTree co mapID optsMapRead (store w) = (inl tree, s1) ->
  NewMapHasher co (HashStrategy tree) = inl hasher ->
  validate_request (Size hasher) indices = Some e ->
  let w1 := {| store := s1; trace := trace w ++ [EvGetTree mapID optsMapRead] |} in
  getLeavesByRevision co sched mapID indices revision w = (Fail e, w1)
  /\ (0 <= revision ->
      GetLeavesByRevisionNoProof co
        {| glr_MapId := mapID; glr_Index := indices; glr_Revision := revision |} w
      = (Fail e, w1))
  /\ status_Code (Some e) = InvalidArgument.
Proof.
  intros HT HH HV w1. subst w1. split; [|split].
  - unfold_server. simpl. rewrite HT. simpl. rewrite HH. simpl. now rewrite HV.
  - intros Hrev. unfold_server. simpl.
    destruct (revision <? 0) eqn:E; [apply Z.ltb_lt in E; lia|].
    rewrite HT. simpl. rewrite HH. simpl. now rewrite HV.
  - pose proof (ValidateFacts.validate_request_cases (Size hasher) indices) as H.
    rewrite HV in H. destruct H as (p & x & _ & _ & ->).
    unfold ValidateSpec.error_at. now destruct (len x =? Size hasher).
Qed.

(** X4.  Once [SnapshotForTree] has handed a transaction to a read with
    proofs, with or without an error, that transaction is closed exactly
    once, and the close is the last call of the read, on every way out:
    success, error or panic. *)
Theorem read_closes_its_snapshot (sched : ReadSchedule) (mapID : Z)
        (indices : list bytes) (revision : Z) (w : World S NodeID)
        (tree : Tree) (hasher : MapHasher) (u : unit) (tx : TX)
        (err : option error) (s1 s2 s3 : S) :
  GetTree co mapID optsMapRead (store w) = (inl tree, s1) ->
  NewMapHasher co (HashStrategy tree) = inl hasher ->
  validate_request (Size hasher) indices = None ->
  CounterAdd co "get_leaves" (len indices) s1 = (u, s2) ->
  SnapshotForTree co tree s2 = ((Some tx, err), s3) ->
  let evs := new_events (getLeavesByRevision co sched mapID indices revision) w in
  filter (fun ev => is_Close ev = true) evs = [EvClose tx]
  /\ last evs = Some (EvClose tx).
Proof.
  intros HT HH HV HC HS evs. subst evs. unfold new_events. unfold_server. simpl.
  rewrite HT. simpl. rewrite HH. simpl. rewrite HV. simpl. rewrite HC. simpl.
  rewrite HS. simpl.
  destruct err as [e|]; simpl.
  - destruct (Close co tx s3) as [cr s4]. simpl.
    rewrite <- !app_assoc, drop_app_length. done.
  - repeat case_goal.
    all: rewrite <- ?app_assoc, drop_app_length; done.
Qed.

(** The events of a bind whose second part adds none. *)
Lemma single_leaf_world (ret : GetMapLeavesResponse) (w : World S NodeID) :
  snd (single_leaf ret w) = w.
Proof.
  unfold single_leaf. destruct (negb _); [done|].
  now destruct (rsp_MapLeafInclusion ret).
Qed.

Lemma getLeavesByRevision_no_write (sched : ReadSchedule) (mapID : Z)
      (indices : list bytes) (revision : Z) (w : World S NodeID) :
  existsb is_write_event
    (new_events (getLeavesByRevision co sched mapID indices revision) w) = false.
Proof.
  unfold new_events. unfold_server. simpl.
  repeat case_goal.
  all: rewrite <- ?app_assoc, ?drop_app_length, ?drop_all; reflexivity.
Qed.

(** X5.  No read makes a call that belongs to a write: whatever the
    collaborators answer, the calls of [GetLeaves], [GetLeavesByRevision],
    [GetLeaf], [GetLeavesByRevisionNoProof], [GetSignedMapRoot] and
    [GetSignedMapRootByRevision] open no read-write transaction, set no
    leaf, drive no tree writer, and sign or store no root. *)
Theorem reads_never_write (sched : ReadSchedule) (c : read_call)
        (lreq : GetMapLeafRequest) (nreq : GetMapLeavesByRevisionRequest)
        (sreq : GetSignedMapRootByRevisionRequest) (mapID : Z) (w : World S NodeID) :
  existsb is_write_event (new_events (run_read co sched c) w) = false
  /\ existsb is_write_event (new_events (GetLeaf co sched lreq) w) = false
  /\ existsb is_write_event (new_events (GetLeavesByRevisionNoProof co nreq) w) = false
  /\ existsb is_write_event (new_events (GetSignedMapRoot_rpc co mapID) w) = false
  /\ existsb is_write_event (new_events (GetSignedMapRootByRevision co sreq) w) = false.
Proof.
  split; [|split; [|split; [|split]]].
  - destruct c as [req|req]; simpl.
    + apply getLeavesByRevision_no_write.
    + unfold new_events, GetLeavesByRevision.
      destruct (glr_Revision req <? 0).
      * simpl. now rewrite drop_all.
      * apply getLeavesByRevision_no_write.
  - pose proof (getLeavesByRevision_no_write sched (gf_MapId lreq) [gf_Index lreq]
                  mostRecentRevision w) as H.
    unfold new_events in *. unfold GetLeaf, bind.
    destruct (getLeavesByRevision co sched (gf_MapId lreq) [gf_Index lreq]
                mostRecentRevision w) as [[rsp|e|msg] w']; simpl in *; try done.
    pose proof (single_leaf_world rsp w') as Hw.
    destruct (single_leaf rsp w') as [r w'']. simpl in Hw. now subst.
  - unfold new_events. unfold_server. simpl.
    repeat case_goal.
    all: rewrite <- ?app_assoc, ?drop_app_length, ?drop_all; reflexivity.
  - unfold new_events. unfold_more. unfold_server. simpl.
    repeat case_goal.
    all: rewrite <- ?app_assoc, ?drop_app_length, ?drop_all; reflexivity.
  - unfold new_events. unfold_server. simpl.
    repeat case_goal.
    all: rewrite <- ?app_assoc, ?drop_app_length, ?drop_all; reflexivity.
Qed.

(** X6.  A read with proofs commits its snapshot only after both fetches
    have succeeded: when it returns a response it has committed; when it
    fails after calling [Commit], the failure is the commit's; every other
    failure, and every panic, comes without a commit. *)
Theorem read_commits_after_both_fetches (sched : ReadSchedule) (mapID : Z)
        (indices : list bytes) (revision : Z) (w : World S NodeID) :
  let committed :=
    existsb is_Commit
      (new_events (getLeavesByRevision co sched mapID indices revision) w) in
  match fst (getLeavesByRevision co sched mapID indices revision w) with
  | Ret _ => committed = true
  | Fail e =>
      committed = true ->
      exists err, e = FmtErrorf "could not commit db transaction: %v" [ArgErr err]
  | Panic _ => committed = false
  end.
Proof.
  unfold new_events. unfold_server. simpl.
  repeat case_goal.
  all: rewrite <- ?app_assoc, ?drop_app_length, ?drop_all; simpl.
  all: first [reflexivity | intros; discriminate | intros; eexists; reflexivity].
Qed.


End Reads.

Section Writes.

Context {S NodeID : Type}.
Variable co : Collaborators S NodeID.
Variable opts : TrillianMapServerOptions.

Lemma bind_ext {A B} (m : M S NodeID A) (k1 k2 : A -> M S NodeID B)
      (w : World S NodeID) :
  (forall a w', k1 a w' = k2 a w') -> bind m k1 w = bind m k2 w.
Proof.
  intros H. unfold bind. destruct (m w) as [[a|e|msg] w']; [apply H|done|done].
Qed.

Lemma leaf_index_at_with_hashes (h : MapLeaf -> bytes) (leaves : list MapLeaf) (i : Z) :
  leaf_index_at
    (map (fun l => {| Index := Index l; LeafHash := h l; LeafValue := LeafValue l;
                      ExtraData := ExtraData l |}) leaves) i
  = leaf_index_at leaves i.
Proof.
  unfold leaf_index_at. change (map ?f ?l) with (f <$> l).
  rewrite list_lookup_fmap. now destruct (leaves !! Z.to_nat i).
Qed.

(** X8.  [SetLeaves] takes no leaf hash from its caller: a request answers
    the same, call for call, whatever [LeafHash] its leaves carry. *)
Theorem SetLeaves_ignores_request_hashes (h : MapLeaf -> bytes)
        (req : SetMapLeavesRequest) (c : list nodeAndID) (w : World S NodeID) :
  SetLeaves co opts (with_hashes h req) c w = SetLeaves co opts req c w.
Proof.
  unfold SetLeaves, with_hashes. simpl. unfold len. rewrite !length_map.
  apply bind_ext. intros _ w0. apply bind_ext. intros [tree hasher] w1.
  unfold validateIndices.
  rewrite (ValidateFacts.validateIndices_loop_ext _ _ (leaf_index_at (sl_Leaves req)))
    by (intros j _; apply leaf_index_at_with_hashes).
  apply bind_ext. intros _ w2.
  rewrite !map_map. reflexivity.
Qed.

(** X9.  [writeLeaves] sets the leaves in order and stops at the first
    [Set] that fails: it returns that error, and the leaves after the failing
    one are not passed to the storage. *)
Theorem writeLeaves_stops_at_first_error (tx : TX) (leaves : list MapLeaf)
        (w : World S NodeID) :
  match writeLeaves co tx leaves w with
  | (Ret _, w') => trace w' = trace w ++ set_events tx leaves
  | (Fail e, w') =>
      exists before x after s,
        leaves = before ++ x :: after
        /\ Set_ co tx (Index x) x s = (Some e, store w')
        /\ trace w' = trace w ++ set_events tx (before ++ [x])
  | (Panic _, _) => False
  end.
Proof.
  revert w. induction leaves as [|l leaves IH]; intros w; simpl.
  - unfold ret. simpl. now rewrite app_nil_r.
  - unfold call_err, bind, call, of_err, ret, fail.
    destruct (Set_ co tx (Index l) l (store w)) as [[e|] s'] eqn:E; simpl.
    + exists [], l, leaves, (store w). simpl. done.
    + specialize (IH {| store := s'; trace := trace w ++ [EvSet tx (Index l) l] |}).
      destruct (writeLeaves co tx leaves _) as [[u|e|msg] w']; simpl in *.
      * rewrite IH, <- app_assoc. done.
      * destruct IH as (before & x & after & s & -> & HS & Ht).
        exists (l :: before), x, after, s. simpl. split; [done|]. split; [done|].
        rewrite Ht, <- app_assoc. done.
      * done.
Qed.

(** The calls of a [writeLeaves] that succeeds. *)
Lemma writeLeaves_success (tx : TX) (leaves : list MapLeaf) (w w' : World S NodeID)
      (u : unit) :
  writeLeaves co tx leaves w = (Ret u, w') ->
  trace w' = trace w ++ set_events tx leaves.
Proof.
  revert w. induction leaves as [|l leaves IH]; intros w H; simpl in H.
  - unfold ret in H. injection H as _ <-. simpl. now rewrite app_nil_r.
  - unfold call_err, bind, call, of_err, ret, fail in H.
    destruct (Set_ co tx (Index l) l (store w)) as [[e|] s'] eqn:E; simpl in H;
      [discriminate|].
    apply IH in H. rewrite H. simpl. now rewrite <- app_assoc.
Qed.

(** The anatomy of a tree update that succeeds. *)
Lemma updateTree_success (tree : Tree) (hasher : MapHasher) (tx : TX)
      (hkv : list HashKeyValue) (metadata : bytes) (rev : Z) (c : list nodeAndID)
      (w w' : World S NodeID) (root : SignedMapRoot) :
  updateTree co opts tree hasher tx hkv metadata rev c w = (Ret root, w') ->
  exists r writer rootHash now signer s1 s1' s2 s2',
    let smr := {| RootHash := rootHash; TimestampNanos := to_uint64 now;
                  Revision := to_uint64 rev; Metadata := metadata |} in
    CalculateRoot co writer s1 = (inl rootHash, s1')
    /\ SignMapRoot co signer smr s2 = (inl root, s2')
    /\ trace w'
       = trace w
         ++ preload_events opts tx r (calcAllSiblingsParallel (BitLen hasher) hkv c)
         ++ [EvNewSparseMerkleTreeWriter (TreeId tree) rev (newTXRunner opts tree tx);
             EvWriterSetLeaves writer hkv; EvCalculateRoot writer; EvNow;
             EvSigner tree; EvSignMapRoot signer smr; EvStoreSignedMapRoot tx root].
Proof.
  intros H. unfold updateTree, doPreload, makeSignedMapRoot, preload_events in H |- *.
  unfold_server.
  destruct (UseSingleTransaction opts && UseLargePreload opts); simpl in H.
  all: repeat case_step H.
  all: injection H as <- <-; simpl.
  - do 9 eexists. split; [eassumption|]. split; [eassumption|].
    now rewrite <- !app_assoc.
  - exists 0. do 8 eexists. split; [eassumption|]. split; [eassumption|].
    now rewrite <- !app_assoc.
Qed.

(** The anatomy of a [SetLeaves] that succeeds. *)
Lemma SetLeaves_success (req : SetMapLeavesRequest) (c : list nodeAndID)
      (w w' : World S NodeID) (root : SignedMapRoot) :
  SetLeaves co opts req c w = (Ret root, w') ->
  exists tree hasher tx writeRev r writer rootHash now signer s0 s0' s1 s1' s2 s2',
    let leaves := hashed_leaves hasher tree req in
    let smr := {| RootHash := rootHash; TimestampNanos := to_uint64 now;
                  Revision := to_uint64 writeRev; Metadata := sl_Metadata req |} in
    WriteRevision co tx s0 = (inl writeRev, s0')
    /\ (sl_Revision req = 0 \/ writeRev = sl_Revision req)
    /\ CalculateRoot co writer s1 = (inl rootHash, s1')
    /\ SignMapRoot co signer smr s2 = (inl root, s2')
    /\ trace w'
       = trace w
         ++ [EvCounterAdd "set_leaves" (len (sl_Leaves req));
             EvGetTree (sl_MapId req) optsMapWrite; EvBegin tree; EvWriteRevision tx]
         ++ set_events tx leaves
         ++ preload_events opts tx r
              (calcAllSiblingsParallel (BitLen hasher) (summary leaves) c)
         ++ [EvNewSparseMerkleTreeWriter (TreeId tree) writeRev
               (newTXRunner opts tree tx);
             EvWriterSetLeaves writer (summary leaves); EvCalculateRoot writer; EvNow;
             EvSigner tree; EvSignMapRoot signer smr; EvStoreSignedMapRoot tx root;
             EvCommit tx; EvClose tx].
Proof.
  intros H. unfold SetLeaves, ReadWriteTransaction, SetLeaves_tx, getWriteRevision in H.
  unfold_server. simpl in H.
  repeat case_step H.
  injection H as <- <-. simpl.
  match goal with Hw : writeLeaves _ _ _ _ = _ |- _ => rename Hw into HW end.
  match goal with Hu : updateTree _ _ _ _ _ _ _ _ _ _ = _ |- _ => rename Hu into HU end.
  match goal with Hr : WriteRevision _ _ _ = _ |- _ => rename Hr into HR end.
  match goal with Hb : negb _ && negb _ = false |- _ => rename Hb into HB end.
  pose proof (writeLeaves_success _ _ _ _ _ HW) as Hsets. simpl in Hsets.
  destruct (updateTree_success _ _ _ _ _ _ _ _ _ _ HU)
    as (r & writer & rootHash & now & signer & s1' & s1'' & s2' & s2'' & HCalc & HSign
        & Htrace).
  do 4 eexists. exists r, writer, rootHash, now, signer. do 6 eexists.
  split; [exact HR|]. split.
  { destruct (Z.eqb_spec (sl_Revision req) 0); [now left|].
    right. simpl in HB. now apply Z.eqb_eq, negb_false_iff. }
  split; [exact HCalc|]. split; [exact HSign|].
  rewrite Htrace, Hsets. unfold hashed_leaves, summary.
  now rewrite <- !app_assoc.
Qed.


(** X11.  The root a successful [SetLeaves] returns is the root it stored,
    and it is the signer's envelope of a map root whose hash is the one
    [CalculateRoot] returned, whose metadata is the request's, and whose
    revision is the write revision the transaction reported, which is the
    expected revision whenever the request gives one. *)
Theorem successful_write_signs_what_it_wrote (req : SetMapLeavesRequest)
        (c : list nodeAndID) (w w' : World S NodeID) (root : SignedMapRoot) :
  SetLeaves co opts req c w = (Ret root, w') ->
  exists tx writeRev writer signer smr s0 s0' s1 s1' s2 s2',
    WriteRevision co tx s0 = (inl writeRev, s0')
    /\ CalculateRoot co writer s1 = (inl (RootHash smr), s1')
    /\ SignMapRoot co signer smr s2 = (inl root, s2')
    /\ Revision smr = to_uint64 writeRev
    /\ (sl_Revision req <> 0 -> Revision smr = to_uint64 (sl_Revision req))
    /\ Metadata smr = sl_Metadata req
    /\ EvSignMapRoot signer smr ∈ trace w'
    /\ EvStoreSignedMapRoot tx root ∈ trace w'.
Proof.
  intros H. apply SetLeaves_success in H.
  destruct H as (tree & hasher & tx & writeRev & r & writer & rootHash & now & signer
                 & s0 & s0' & s1 & s1' & s2 & s2' & HW & Hrev & HC & HS & Ht).
  exists tx, writeRev, writer, signer,
         {| RootHash := rootHash; TimestampNanos := to_uint64 now;
            Revision := to_uint64 writeRev; Metadata := sl_Metadata req |},
         s0, s0', s1, s1', s2, s2'.
  split; [exact HW|]. split; [exact HC|]. split; [exact HS|]. split; [done|].
  split; [intros Hnz; destruct Hrev as [?| ->]; done|]. split; [done|].
  rewrite Ht. split.
  - rewrite !elem_of_app. do 3 right. rewrite !elem_of_cons. tauto.
  - rewrite !elem_of_app. do 3 right. rewrite !elem_of_cons. tauto.
Qed.

(** X12.  [SetLeaves] fails before it opens a transaction when the tree
    lookup fails, with the lookup's error as it is, and when the indices of
    its leaves fail validation, with the validation's error of kind
    [InvalidArgument]; the calls made are the counter and the tree lookup. *)
Theorem write_fails_before_its_transaction (req : SetMapLeavesRequest)
        (c : list nodeAndID) (w : World S NodeID) (u : unit) (s0 s1 : S)
        (looked : Tree + error) :
  CounterAdd co "set_leaves" (len (sl_Leaves req)) (store w) = (u, s0) ->
  GetTree co (sl_MapId req) optsMapWrite s0 = (looked, s1) ->
  let w1 := {| store := s1;
               trace := trace w ++ [EvCounterAdd "set_leaves" (len (sl_Leaves req));
                                    EvGetTree (sl_MapId req) optsMapWrite] |} in
  (forall e, looked = inr e -> SetLeaves co opts req c w = (Fail e, w1))
  /\ (forall tree hasher e,
         looked = inl tree ->
         NewMapHasher co (HashStrategy tree) = inl hasher ->
         validate_request (Size hasher) (map Index (sl_Leaves req)) = Some e ->
         SetLeaves co opts req c w = (Fail e, w1)
         /\ status_Code (Some e) = InvalidArgument).
Proof.
  intros HC HT w1. subst w1. split.
  - intros e ->. unfold SetLeaves. unfold_server. simpl. rewrite HC. simpl.
    rewrite HT. simpl. now rewrite <- !app_assoc.
  - intros tree hasher e -> HH HV. split.
    + unfold SetLeaves. unfold_server. simpl. rewrite HC. simpl. rewrite HT. simpl.
      rewrite HH. simpl. rewrite ValidateFacts.validate_leaves, HV.
      now rewrite <- !app_assoc.
    + pose proof (ValidateFacts.validate_request_cases (Size hasher)
                    (map Index (sl_Leaves req))) as H.
      rewrite HV in H. destruct H as (p & x & _ & _ & ->).
      unfold ValidateSpec.error_at. now destruct (len x =? Size hasher).
Qed.

(** X13.  [InitMap] reports a failed tree lookup as [FailedPrecondition],
    whatever kind the lookup's error has, and begins no transaction. *)
Theorem InitMap_failed_lookup (req : InitMapRequest) (w : World S NodeID)
        (e : error) (s1 : S) :
  GetTree co (im_MapId req) optsMapInit (store w) = (inr e, s1) ->
  InitMap co req w
  = (Fail (StatusErrorf FailedPrecondition "getTreeAndHasher(): %v" [ArgErr e]),
     {| store := s1; trace := trace w ++ [EvGetTree (im_MapId req) optsMapInit] |}).
Proof.
  intros HT. unfold InitMap. unfold_server. simpl. now rewrite HT.
Qed.

(** X14.  When [LatestSignedMapRoot] fails in [InitMap] with an error other
    than the needs-init sentinel, the call fails with [FailedPrecondition]
    whether or not a root came with the error: the check for an existing
    root is not reached, and nothing is signed, stored or committed. *)
Theorem InitMap_storage_error (req : InitMapRequest) (w : World S NodeID)
        (tree : Tree) (hasher : MapHasher) (tx : TX)
        (latest : option SignedMapRoot) (e : error) (cr : option error)
        (s1 s2 s3 s4 : S) :
  GetTree co (im_MapId req) optsMapInit (store w) = (inl tree, s1) ->
  NewMapHasher co (HashStrategy tree) = inl hasher ->
  Begin co tree s1 = (inl tx, s2) ->
  LatestSignedMapRoot co tx s2 = ((latest, Some e), s3) ->
  is_ErrTreeNeedsInit e = false ->
  Close co tx s3 = (cr, s4) ->
  InitMap co req w
  = (Fail (StatusErrorf FailedPrecondition "LatestSignedMapRoot(): %v" [ArgErr e]),
     {| store := s4;
        trace := trace w ++ [EvGetTree (im_MapId req) optsMapInit; EvBegin tree;
                             EvLatestSignedMapRoot tx; EvClose tx] |}).
Proof.
  intros HT HH HB HL He HCl.
  unfold InitMap, ReadWriteTransaction, InitMap_tx. unfold_server. simpl.
  rewrite HT. simpl. rewrite HH. simpl. rewrite HB. simpl. rewrite HL. simpl.
  rewrite He. simpl. rewrite HCl. now rewrite <- !app_assoc.
Qed.

(** X15.  For a batch without keys nothing is sent on the channel, and the
    preload still asks the storage, with an empty list of ids. *)
Theorem preload_of_empty_batch (tx : TX) (treeDepth : Z) (c : list nodeAndID)
        (w : World S NodeID) (r : Z) (res : option error) (s1 s2 : S) :
  interleaving (producers co []) c ->
  ReadRevision co tx (store w) = (inl r, s1) ->
  GetMerkleNodes co tx r [] s1 = (res, s2) ->
  c = []
  /\ doPreload co tx treeDepth [] c w
     = (match res with None => Ret tt | Some e => Fail e end,
        {| store := s2;
           trace := trace w ++ [EvReadRevision tx; EvGetMerkleNodes tx r []] |}).
Proof.
  intros Hil HR HG.
  assert (Hc : c = []).
  { pose proof (interleaving_elem_of _ _ Hil) as Hel. simpl in Hel.
    destruct c as [|x c]; [done|]. exfalso.
    pose proof (proj1 (Hel x) ltac:(now left)) as Hx. inversion Hx. }
  split; [done|]. subst c.
  unfold doPreload, calcAllSiblingsParallel. unfold_server. simpl. rewrite HR. simpl.
  rewrite HG. destruct res; simpl; now rewrite <- !app_assoc.
Qed.

End Writes.

Section Atomic.

Context {S NodeID : Type}.
Variable co : Collaborators S NodeID.
Variable opts : TrillianMapServerOptions.





















(** X27.  The reads of a root return the root the storage gave, as it is:
    [GetSignedMapRoot] the latest one, which may be nil, and
    [GetSignedMapRootByRevision] the one of the revision asked for, which is
    not negative.  The calls of a read that succeeds are the tree lookup, the
    snapshot, the read of the root, the commit and the close. *)
Theorem root_reads_return_the_stored_root (mapID : Z)
        (req : GetSignedMapRootByRevisionRequest) (w : World S NodeID) :
  (forall r w',
      GetSignedMapRoot_rpc co mapID w = (Ret r, w') ->
      exists tree tx s s',
        LatestSignedMapRoot co tx s = ((r, None), s')
        /\ trace w'
           = trace w ++ [EvGetTree mapID optsMapRead; EvSnapshotForTree tree;
                         EvLatestSignedMapRoot tx; EvCommit tx; EvClose tx])
  /\ (forall r w',
         GetSignedMapRootByRevision co req w = (Ret r, w') ->
         0 <= gsr_Revision req
         /\ exists tree tx s s',
              GetSignedMapRoot co tx (gsr_Revision req) s = (inl r, s')
              /\ trace w'
                 = trace w ++ [EvGetTree (gsr_MapId req) optsMapRead;
                               EvSnapshotForTree tree;
                               EvGetSignedMapRoot tx (gsr_Revision req);
                               EvCommit tx; EvClose tx]).
Proof.
  split; intros r w' H.
  - unfold_more. unfold_server. simpl in H. repeat case_step H.
    injection H as <- <-. simpl. do 4 eexists. split; [eassumption|].
    now rewrite <- !app_assoc.
  - unfold_server. simpl in H.
    destruct (gsr_Revision req <? 0) eqn:E; [discriminate|]. apply Z.ltb_ge in E.
    split; [exact E|]. repeat case_step H.
    injection H as <- <-. simpl. do 4 eexists. split; [eassumption|].
    now rewrite <- !app_assoc.
Qed.

End Atomic.

End ServerMoreFacts.

(** ** More of the load generator *)

Module HammerMoreFacts.

Import Hammer HammerMore HammerFacts.

Section Bias.

Variable hb : MapBias.

Lemma exact_sum_nonneg (eps : list MapEntrypointName) :
  (forall ep, ep ∈ eps -> 0 <= bias_of hb ep) -> 0 <= exact_sum hb eps.
Proof.
  induction eps as [|x eps IH]; intros H; unfold exact_sum; simpl; [lia|].
  pose proof (H x ltac:(now left)).
  assert (0 <= exact_sum hb eps) by (apply IH; intros; apply H; now right).
  unfold exact_sum in *. lia.
Qed.

Lemma exact_sum_cons (x : MapEntrypointName) (eps : list MapEntrypointName) :
  exact_sum hb (x :: eps) = bias_of hb x + exact_sum hb eps.
Proof. reflexivity. Qed.

(** The entrypoint whose stretch of the draws holds [which] is returned. *)
Lemma pick_in_stretch (pre : list MapEntrypointName) (ep : MapEntrypointName)
      (post : list MapEntrypointName) (which : Z) :
  biases_fit hb (pre ++ ep :: post) ->
  0 <= which < 2 ^ 63 ->
  exact_sum hb pre <= which < exact_sum hb pre + bias_of hb ep ->
  pick hb which (pre ++ ep :: post) = Some ep.
Proof.
  revert which. induction pre as [|p pre IH]; intros which [Hnn Hsum] Hw Hin.
  - cbn [app] in *. change (exact_sum hb []) with 0 in Hin.
    rewrite exact_sum_cons in Hsum.
    assert (Hrest : 0 <= exact_sum hb post).
    { apply exact_sum_nonneg. intros e He. apply Hnn. now right. }
    cbn [pick]. rewrite ServerFacts.to_int64_small by lia.
    destruct (which - bias_of hb ep <? 0) eqn:E; [done|]. apply Z.ltb_ge in E. lia.
  - cbn [app] in *. rewrite exact_sum_cons in Hsum, Hin.
    assert (Hp : 0 <= bias_of hb p) by (apply Hnn; now left).
    assert (Hrest : 0 <= exact_sum hb (pre ++ ep :: post)).
    { apply exact_sum_nonneg. intros e He. apply Hnn. now right. }
    assert (Hpre : 0 <= exact_sum hb pre).
    { apply exact_sum_nonneg. intros e He. apply Hnn. right.
      apply elem_of_app. now left. }
    cbn [pick]. rewrite ServerFacts.to_int64_small by lia.
    destruct (which - bias_of hb p <? 0) eqn:E; [apply Z.ltb_lt in E; lia|].
    apply IH; [|lia|lia].
    split; [intros e He; apply Hnn; now right|lia].
Qed.

(** What is returned has [which] in its stretch. *)
Lemma pick_stretch (eps : list MapEntrypointName) (ep : MapEntrypointName) (which : Z) :
  biases_fit hb eps ->
  0 <= which < 2 ^ 63 ->
  pick hb which eps = Some ep ->
  exists pre post,
    eps = pre ++ ep :: post
    /\ exact_sum hb pre <= which < exact_sum hb pre + bias_of hb ep.
Proof.
  revert which. induction eps as [|p eps IH]; intros which [Hnn Hsum] Hw H;
    cbn [pick] in H; [done|].
  rewrite exact_sum_cons in Hsum.
  assert (Hp : 0 <= bias_of hb p) by (apply Hnn; now left).
  assert (Hrest : 0 <= exact_sum hb eps).
  { apply exact_sum_nonneg. intros e He. apply Hnn. now right. }
  rewrite ServerFacts.to_int64_small in H by lia.
  destruct (which - bias_of hb p <? 0) eqn:E.
  - injection H as <-. apply Z.ltb_lt in E. exists [], eps.
    change (exact_sum hb []) with 0. split; [done|lia].
  - apply Z.ltb_ge in E.
    destruct (IH (which - bias_of hb p)) as (pre & post & -> & Hin); [|lia|done|].
    { split; [intros e He; apply Hnn; now right|lia]. }
    exists (p :: pre), post. rewrite exact_sum_cons. split; [done|lia].
Qed.

(** Without wrap-around the sum the code computes is the sum. *)
Lemma bias_sum_exact :
  biases_fit hb mapEntrypoints -> bias_sum hb = exact_sum hb mapEntrypoints.
Proof.
  intros [Hnn Hsum].
  pose proof (exact_sum_nonneg mapEntrypoints Hnn) as H0.
  apply congruent_small; [apply bias_sum_mod| |lia].
  unfold bias_sum. apply add_biases_range. discriminate.
Qed.

End Bias.

(** With a fresh or consistent total and biases that fit, [choose] is the
    second loop run on a draw below the sum. *)
Lemma choose_is_pick (hb : MapBias) (Intn : Z -> Z) :
  total_fresh hb ->
  biases_fit hb mapEntrypoints ->
  0 < exact_sum hb mapEntrypoints ->
  fst (choose hb Intn)
  = match pick hb (Intn (exact_sum hb mapEntrypoints)) mapEntrypoints with
    | Some ep => Returns ep
    | None => Panics "random choice out of range"
    end.
Proof.
  intros Hfresh Hfit Hpos.
  pose proof (bias_sum_exact hb Hfit) as Hsum.
  set (hb' := if total hb =? 0 then
                {| Bias := Bias hb;
                   total := add_biases hb (total hb) mapEntrypoints;
                   InvalidChance := InvalidChance hb |}
              else hb).
  assert (HB : Bias hb' = Bias hb) by (subst hb'; now destruct (total hb =? 0)).
  assert (HT : total hb' = exact_sum hb mapEntrypoints).
  { rewrite <- Hsum. subst hb'. destruct (total hb =? 0) eqn:E.
    - apply Z.eqb_eq in E. cbn [total]. rewrite E. unfold bias_sum. exact eq_refl.
    - apply Z.eqb_neq in E. destruct Hfresh as [H0|H0]; [contradiction|exact H0]. }
  unfold choose. fold hb'. rewrite HT.
  destruct (exact_sum hb mapEntrypoints <=? 0) eqn:E; [apply Z.leb_le in E; lia|].
  rewrite (pick_ext hb hb') by exact HB.
  destruct (pick hb _ mapEntrypoints); reflexivity.
Qed.

(** X18.  [choose] picks by weight: with biases that are not negative and
    whose sum fits, the draw [which] below the sum returns the entrypoint [ep]
    exactly when [which] lies in the stretch of [bias(ep)] draws that follows
    the biases of the entrypoints listed before [ep]. *)
Theorem choose_picks_by_weight (hb : MapBias) (Intn : Z -> Z)
        (pre : list MapEntrypointName) (ep : MapEntrypointName)
        (post : list MapEntrypointName) :
  Intn_in_range Intn ->
  total_fresh hb ->
  biases_fit hb mapEntrypoints ->
  0 < exact_sum hb mapEntrypoints ->
  mapEntrypoints = pre ++ ep :: post ->
  let which := Intn (exact_sum hb mapEntrypoints) in
  exact_sum hb pre <= which < exact_sum hb pre + bias_of hb ep
  <-> fst (choose hb Intn) = Returns ep.
Proof.
  intros HIntn Hfresh Hfit Hpos Hdec which.
  pose proof (HIntn _ Hpos) as Hw. fold which in Hw.
  assert (Hw' : 0 <= which < 2 ^ 63) by (destruct Hfit; lia).
  rewrite choose_is_pick by done. fold which. split.
  - intros Hin. rewrite Hdec. rewrite pick_in_stretch; [done| |done|done].
    now rewrite <- Hdec.
  - intros H. destruct (pick hb which mapEntrypoints) as [ep'|] eqn:E; [|done].
    injection H as ->.
    destruct (pick_stretch hb _ _ _ Hfit Hw' E) as (pre' & post' & Hdec' & Hin).
    assert (Hpre : pre' = pre).
    { rewrite Hdec in Hdec'. clear -Hdec' Hdec.
      assert (Hnd : NoDup mapEntrypoints).
      { unfold mapEntrypoints. repeat (constructor; [rewrite ?elem_of_cons;
          intros H; repeat (destruct H as [H|H]; [discriminate|]); inversion H|]).
        constructor. }
      rewrite Hdec in Hnd. clear Hdec.
      revert pre' Hdec'. induction pre as [|x pre IH]; intros [|y pre'] H;
        simpl in H.
      - done.
      - injection H as <- H. exfalso. apply NoDup_cons in Hnd as [Hn _].
        apply Hn. rewrite H. apply elem_of_app. right. now left.
      - injection H as -> H. exfalso. simpl in Hnd. apply NoDup_cons in Hnd as [Hn _].
        apply Hn. apply elem_of_app. right. now left.
      - injection H as <- H. f_equal. apply IH; [|done].
        simpl in Hnd. now apply NoDup_cons in Hnd as [_ Hnd]. }
    now subst.
Qed.

(** X19.  An entrypoint whose bias is zero, or that has no bias, is never
    chosen. *)
Theorem choose_skips_zero_bias (hb : MapBias) (Intn : Z -> Z) (ep : MapEntrypointName) :
  Intn_in_range Intn ->
  total_fresh hb ->
  biases_fit hb mapEntrypoints ->
  0 < exact_sum hb mapEntrypoints ->
  bias_of hb ep = 0 ->
  fst (choose hb Intn) <> Returns ep.
Proof.
  intros HIntn Hfresh Hfit Hpos Hzero H.
  pose proof (HIntn _ Hpos) as Hw.
  rewrite choose_is_pick in H by done.
  destruct (pick hb _ mapEntrypoints) as [ep'|] eqn:E; [|done].
  injection H as ->.
  assert (Hw' : 0 <= Intn (exact_sum hb mapEntrypoints) < 2 ^ 63)
    by (destruct Hfit; lia).
  destruct (pick_stretch hb _ _ _ Hfit Hw' E) as (pre & post & _ & Hin).
  lia.
Qed.

(** X20.  [getOp] finds an operation exactly for the five entrypoints of
    [mapEntrypoints]; for any other name it returns the unknown-operation
    error. *)
Theorem getOp_knows_the_entrypoints {Op : Type} (ep : MapEntrypointName)
        (read : readOps Op) (write : Op) :
  (ep ∈ mapEntrypoints <-> exists op, getOp ep read write = inl op)
  /\ (ep ∉ mapEntrypoints -> getOp ep read write = inr (unknown_operation ep)).
Proof.
  unfold getOp, mapEntrypoints.
  destruct (String.eqb_spec ep GetLeavesName) as [->|n1].
  { split; [split; [eauto|intros _; rewrite !elem_of_cons; tauto]|].
    intros H. exfalso. apply H. rewrite !elem_of_cons. tauto. }
  destruct (String.eqb_spec ep GetLeavesRevName) as [->|n2].
  { split; [split; [eauto|intros _; rewrite !elem_of_cons; tauto]|].
    intros H. exfalso. apply H. rewrite !elem_of_cons. tauto. }
  destruct (String.eqb_spec ep GetSMRName) as [->|n3].
  { split; [split; [eauto|intros _; rewrite !elem_of_cons; tauto]|].
    intros H. exfalso. apply H. rewrite !elem_of_cons. tauto. }
  destruct (String.eqb_spec ep GetSMRRevName) as [->|n4].
  { split; [split; [eauto|intros _; rewrite !elem_of_cons; tauto]|].
    intros H. exfalso. apply H. rewrite !elem_of_cons. tauto. }
  destruct (String.eqb_spec ep SetLeavesName) as [->|n5].
  { split; [split; [eauto|intros _; rewrite !elem_of_cons; tauto]|].
    intros H. exfalso. apply H. rewrite !elem_of_cons. tauto. }
  split; [|done]. split.
  - rewrite !elem_of_cons. intros [?|[?|[?|[?|[?|H]]]]]; try done. inversion H.
  - intros [op H]. discriminate.
Qed.


Lemma drop_zeros_zeros (n : nat) (l : bytes) :
  drop_zeros (replicate n Byte.x00 ++ l) = drop_zeros l.
Proof. induction n as [|n IH]; simpl; done. Qed.

Lemma drop_zeros_keeps (l : bytes) : head l <> Some Byte.x00 -> drop_zeros l = l.
Proof.
  destruct l as [|x l]; simpl; [done|]. intros H.
  destruct (Byte.eqb x Byte.x00) eqn:E; [|done].
  apply Byte.byte_dec_bl in E. congruence.
Qed.

(** X22.  [dehash] undoes zero padding: the zero bytes appended to a key
    are trimmed, and a key that does not itself end in a zero byte comes back
    as it was. *)
Theorem dehash_strips_padding (key : bytes) (n : nat) :
  last key <> Some Byte.x00 ->
  dehash (key ++ replicate n Byte.x00) = string_of_bytes key
  /\ dehash key = string_of_bytes key.
Proof.
  intros Hlast.
  assert (Hk : TrimRight_zero key = key).
  { unfold TrimRight_zero. rewrite drop_zeros_keeps; [apply reverse_involutive|].
    now rewrite head_reverse. }
  unfold dehash. rewrite Hk. split; [|done]. f_equal.
  unfold TrimRight_zero in *.
  rewrite reverse_app, reverse_replicate, drop_zeros_zeros. exact Hk.
Qed.

Lemma list_byte_of_string_inj (a b : string) :
  list_byte_of_string a = list_byte_of_string b -> a = b.
Proof.
  intros H. rewrite <- (string_of_list_byte_of_string a),
              <- (string_of_list_byte_of_string b). now rewrite H.
Qed.

(** X23.  [metadataForRev] tells revisions apart: it is empty for revision
    0 only, and two revisions with the same metadata are the same revision. *)
Theorem metadataForRev_inj (a b : Z) :
  0 <= a -> 0 <= b ->
  (metadataForRev a = [] <-> a = 0)
  /\ (metadataForRev a = metadataForRev b -> a = b).
Proof.
  intros Ha Hb. unfold metadataForRev. split.
  - destruct (Z.eqb_spec a 0) as [->|n]; [done|]. split; [|done].
    intros H. exfalso. apply (f_equal length) in H. simpl in H.
    cbv [list_byte_of_string] in H. simpl in H. discriminate.
  - destruct (Z.eqb_spec a 0) as [->|na], (Z.eqb_spec b 0) as [->|nb]; [done| | |].
    + intros H. exfalso. apply (f_equal length) in H.
      cbv [list_byte_of_string] in H. simpl in H. discriminate.
    + intros H. exfalso. apply (f_equal length) in H.
      cbv [list_byte_of_string] in H. simpl in H. discriminate.
    + intros H. apply list_byte_of_string_inj in H.
      apply (inj (String.append "Metadata-")) in H || (simpl in H; injection H as H).
      apply (inj pretty) in H. lia.
Qed.

(** X24.  [invalid] with a chance of 1 marks every operation of the
    entrypoint as invalid, whatever the random source draws; for an
    entrypoint without a chance it marks none. *)
Theorem invalid_by_chance (hb : MapBias) (ep : MapEntrypointName) (Intn : Z -> Z) :
  Intn_in_range Intn ->
  (InvalidChance hb !! ep = Some 1 -> invalid hb ep Intn = true)
  /\ (InvalidChance hb !! ep = None -> invalid hb ep Intn = false).
Proof.
  intros HIntn. unfold invalid. split; intros ->; simpl; [|done].
  pose proof (HIntn 1 ltac:(lia)). apply Z.eqb_eq. lia.
Qed.

End HammerMoreFacts.

(** ** More runs on the in-memory instance *)

Module MoreExamples.

Import Server ServerSpec ServerMore InMemory InMemoryMore ValidateSpec.

(** X2 on the store with one leaf: revision -1 reads the latest revision. *)
Lemma GetLeafByRevision_negative_is_latest_witness :
  GetLeafByRevision collaborators sched0 leafReqNegative world2'
  = GetLeaf collaborators sched0 leafReq world2'.
Proof.
  apply (ServerMoreFacts.GetLeafByRevision_negative_is_latest collaborators sched0
           leafReqNegative world2').
  simpl. lia.
Defined.

(** X3 on the store with one leaf: an index of two bytes. *)
Lemma invalid_read_opens_no_snapshot_witness :
  let e := StatusErrorf InvalidArgument
             "index at position %d has wrong length: got=%d,want=%d"
             [ArgInt 0; ArgInt 2; ArgInt 1] in
  let w1 := {| store := store world2; trace := [EvGetTree 7 optsMapRead] |} in
  getLeavesByRevision collaborators sched0 7 [[Byte.x01; Byte.x02]] 1 world2'
  = (Fail e, w1)
  /\ GetLeavesByRevisionNoProof collaborators
       {| glr_MapId := 7; glr_Index := [[Byte.x01; Byte.x02]]; glr_Revision := 1 |}
       world2'
     = (Fail e, w1)
  /\ status_Code (Some e) = InvalidArgument.
Proof.
  destruct (ServerMoreFacts.invalid_read_opens_no_snapshot collaborators sched0 7
              [[Byte.x01; Byte.x02]] 1 world2' tree7 hasher (store world2) _
              eq_refl eq_refl eq_refl) as (H1 & H2 & H3).
  split; [exact H1|]. split; [apply H2; lia|exact H3].
Defined.

(** X4 on the store with one leaf: the read of index [01] closes
    transaction 1, last. *)
Lemma read_closes_its_snapshot_witness :
  let evs := new_events (getLeavesByRevision collaborators sched0 7 [[Byte.x01]] (-1))
               world2' in
  filter (fun ev => is_Close ev = true) evs = [EvClose 1]
  /\ last evs = Some (EvClose 1).
Proof.
  exact (ServerMoreFacts.read_closes_its_snapshot collaborators sched0 7 [[Byte.x01]]
           (-1) world2' tree7 hasher tt 1 None (store world2) (store world2)
           (store world2) eq_refl eq_refl eq_refl eq_refl eq_refl).
Defined.



(** X11 on the same write. *)
Lemma successful_write_signs_what_it_wrote_witness :
  exists root w',
    SetLeaves collaborators both_opts reqA channelA world1' = (Ret root, w')
    /\ root = {| MapRoot := Some [Byte.x01; Byte.x01]; Signature := [] |}
    /\ exists tx writeRev writer signer smr s0 s0' s1 s1' s2 s2',
         WriteRevision collaborators tx s0 = (inl writeRev, s0')
         /\ CalculateRoot collaborators writer s1 = (inl (RootHash smr), s1')
         /\ SignMapRoot collaborators signer smr s2 = (inl root, s2')
         /\ Revision smr = to_uint64 writeRev
         /\ (sl_Revision reqA <> 0 -> Revision smr = to_uint64 (sl_Revision reqA))
         /\ Metadata smr = sl_Metadata reqA
         /\ EvSignMapRoot signer smr ∈ trace w'
         /\ EvStoreSignedMapRoot tx root ∈ trace w'.
Proof.
  eassert (Hrun : SetLeaves collaborators both_opts reqA channelA world1'
                  = (Ret _, _)) by (vm_compute; reflexivity).
  do 2 eexists. split; [exact Hrun|]. split; [reflexivity|].
  exact (ServerMoreFacts.successful_write_signs_what_it_wrote collaborators both_opts
           reqA channelA world1' _ _ Hrun).
Defined.

(** X12 on the store that holds revision 0: the write of a leaf whose
    index has two bytes. *)
Lemma write_fails_before_its_transaction_witness :
  let e := StatusErrorf InvalidArgument
             "index at position %d has wrong length: got=%d,want=%d"
             [ArgInt 0; ArgInt 2; ArgInt 1] in
  SetLeaves collaborators both_opts reqLong [] world1'
  = (Fail e,
     {| store := store world1;
        trace := [EvCounterAdd "set_leaves" 1; EvGetTree 7 optsMapWrite] |})
  /\ status_Code (Some e) = InvalidArgument.
Proof.
  destruct (ServerMoreFacts.write_fails_before_its_transaction collaborators both_opts
              reqLong [] world1' tt (store world1) (store world1) (inl tree7)
              eq_refl eq_refl) as [_ H].
  exact (H tree7 hasher _ eq_refl eq_refl eq_refl).
Defined.

(** X13 on the fresh store: there is no tree 8. *)
Lemma InitMap_failed_lookup_witness :
  InitMap collaborators {| im_MapId := 8 |} world0
  = (Fail (StatusErrorf FailedPrecondition "getTreeAndHasher(): %v"
             [ArgErr (StatusErrorf NotFound "tree %d not found" [ArgInt 8])]),
     {| store := fresh; trace := [EvGetTree 8 optsMapInit] |})
  /\ status_Code (Some (StatusErrorf NotFound "tree %d not found" [ArgInt 8]))
     = NotFound.
Proof.
  split; [|reflexivity].
  exact (ServerMoreFacts.InitMap_failed_lookup collaborators {| im_MapId := 8 |}
           world0 _ fresh eq_refl).
Defined.

(** X14 on the fresh store behind a storage that is down. *)
Lemma InitMap_storage_error_witness :
  InitMap broken {| im_MapId := 7 |} world0
  = (Fail (StatusErrorf FailedPrecondition "LatestSignedMapRoot(): %v"
             [ArgErr unavailable]),
     {| store := fresh;
        trace := [EvGetTree 7 optsMapInit; EvBegin tree7; EvLatestSignedMapRoot 2;
                  EvClose 2] |}).
Proof.
  exact (ServerMoreFacts.InitMap_storage_error broken {| im_MapId := 7 |} world0
           tree7 hasher 2 None unavailable None fresh fresh fresh fresh
           eq_refl eq_refl eq_refl eq_refl eq_refl eq_refl).
Defined.

(** X15 on the store with one leaf. *)
Lemma preload_of_empty_batch_witness :
  ([] : list (nodeAndID (NodeID := node_id))) = []
  /\ doPreload collaborators 2 8 [] [] world2'
     = (Ret tt,
        {| store := store world2;
           trace := [EvReadRevision 2; EvGetMerkleNodes 2 1 []] |}).
Proof.
  exact (ServerMoreFacts.preload_of_empty_batch collaborators 2 8 [] world2' 1 None
           (store world2) (store world2)
           (ServerFacts.interleaving_concat (producers collaborators []))
           eq_refl eq_refl).
Defined.

(** X16: the duplicate at position 1 is named whatever follows. *)
Lemma rejection_survives_more_indices_witness :
  validate_request 1 ([[Byte.x01]; [Byte.x01]] ++ [[Byte.x02; Byte.x03]])
  = Some (StatusErrorf InvalidArgument "duplicate index detected at position %d"
            [ArgInt 1]).
Proof.
  apply (ValidateMoreFacts.rejection_survives_more_indices 1
           [[Byte.x01]; [Byte.x01]] [[Byte.x02; Byte.x03]]).
  vm_compute. reflexivity.
Defined.

(** X17: two indices, in either order. *)
Lemma acceptance_ignores_order_witness :
  validate_request 1 [[Byte.x02]; [Byte.x01]] = None.
Proof.
  apply (ValidateMoreFacts.acceptance_ignores_order 1 [[Byte.x01]; [Byte.x02]]
           [[Byte.x02]; [Byte.x01]]).
  - apply perm_swap.
  - vm_compute. reflexivity.
Defined.

Lemma largest_in_range : HammerMore.Intn_in_range HammerMore.largest.
Proof. intros n Hn. unfold HammerMore.largest. lia. Qed.

Lemma two_to_one_fits : HammerMore.biases_fit Hammer.two_to_one Hammer.mapEntrypoints.
Proof.
  split.
  - intros ep Hep. unfold Hammer.mapEntrypoints in Hep.
    repeat (apply elem_of_cons in Hep as [-> |Hep]; [vm_compute; discriminate|]).
    inversion Hep.
  - vm_compute. reflexivity.
Qed.

(** X18 on biases 2 and 1 with the largest draw, 2: it lies in the stretch
    of [SetLeaves], which follows the 2 draws of [GetLeaves] and the none of
    [GetLeavesRev]. *)
Lemma choose_picks_by_weight_witness :
  fst (Hammer.choose Hammer.two_to_one HammerMore.largest)
  = Hammer.Returns Hammer.SetLeavesName.
Proof.
  apply (proj1 (HammerMoreFacts.choose_picks_by_weight Hammer.two_to_one
                  HammerMore.largest [Hammer.GetLeavesName; Hammer.GetLeavesRevName]
                  Hammer.SetLeavesName [Hammer.GetSMRName; Hammer.GetSMRRevName]
                  largest_in_range (or_introl eq_refl) two_to_one_fits
                  eq_refl eq_refl)).
  vm_compute. split; [discriminate|reflexivity].
Defined.

(** X19 on the same biases: [GetSMR] has no bias. *)
Lemma choose_skips_zero_bias_witness :
  fst (Hammer.choose Hammer.two_to_one HammerMore.largest)
  <> Hammer.Returns Hammer.GetSMRName.
Proof.
  exact (HammerMoreFacts.choose_skips_zero_bias Hammer.two_to_one HammerMore.largest
           Hammer.GetSMRName largest_in_range (or_introl eq_refl) two_to_one_fits
           eq_refl eq_refl).
Defined.


(** X22 on the key [k] padded to four bytes. *)
Lemma dehash_strips_padding_witness :
  HammerMore.dehash ([Byte.x6b] ++ replicate 3 Byte.x00) = "k"%string
  /\ HammerMore.dehash [Byte.x6b] = "k"%string.
Proof.
  apply (HammerMoreFacts.dehash_strips_padding [Byte.x6b] 3). simpl. discriminate.
Defined.

(** X23 on revisions 3 and 12. *)
Lemma metadataForRev_inj_witness :
  (HammerMore.metadataForRev 3 = [] <-> 3 = 0)
  /\ (HammerMore.metadataForRev 3 = HammerMore.metadataForRev 12 -> 3 = 12).
Proof.
  apply (HammerMoreFacts.metadataForRev_inj 3 12); lia.
Defined.

(** X24 on a chance of 1 for [SetLeaves]. *)
Lemma invalid_by_chance_witness :
  HammerMore.invalid HammerMore.always_invalid Hammer.SetLeavesName HammerMore.largest
  = true.
Proof.
  apply (proj1 (HammerMoreFacts.invalid_by_chance HammerMore.always_invalid
                  Hammer.SetLeavesName HammerMore.largest largest_in_range)).
  vm_compute. reflexivity.
Defined.


(** X27 on the store with one leaf: the latest root and the root of
    revision 1 are the root the write stored. *)
Lemma root_reads_return_the_stored_root_witness :
  (exists w' tree tx s s',
      GetSignedMapRoot_rpc collaborators 7 world2'
      = (Ret (Some {| MapRoot := Some [Byte.x01; Byte.x01]; Signature := [] |}), w')
      /\ LatestSignedMapRoot collaborators tx s
         = ((Some {| MapRoot := Some [Byte.x01; Byte.x01]; Signature := [] |}, None),
            s')
      /\ trace w'
         = trace world2' ++ [EvGetTree 7 optsMapRead; EvSnapshotForTree tree;
                             EvLatestSignedMapRoot tx; EvCommit tx; EvClose tx])
  /\ (exists w' tree tx s s',
         GetSignedMapRootByRevision collaborators
           {| gsr_MapId := 7; gsr_Revision := 1 |} world2'
         = (Ret {| MapRoot := Some [Byte.x01; Byte.x01]; Signature := [] |}, w')
         /\ GetSignedMapRoot collaborators tx 1 s
            = (inl {| MapRoot := Some [Byte.x01; Byte.x01]; Signature := [] |}, s')
         /\ trace w'
            = trace world2' ++ [EvGetTree 7 optsMapRead; EvSnapshotForTree tree;
                                EvGetSignedMapRoot tx 1; EvCommit tx; EvClose tx]).
Proof.
  destruct (ServerMoreFacts.root_reads_return_the_stored_root collaborators 7
              {| gsr_MapId := 7; gsr_Revision := 1 |} world2') as [H1 H2].
  split.
  - eassert (Hrun : GetSignedMapRoot_rpc collaborators 7 world2' = (Ret _, _))
      by (vm_compute; reflexivity).
    destruct (H1 _ _ Hrun) as (tree & tx & s & s' & HL & Ht).
    eexists. exists tree, tx, s, s'. split; [exact Hrun|]. split; [exact HL|exact Ht].
  - eassert (Hrun : GetSignedMapRootByRevision collaborators
                      {| gsr_MapId := 7; gsr_Revision := 1 |} world2' = (Ret _, _))
      by (vm_compute; reflexivity).
    destruct (H2 _ _ Hrun) as (_ & tree & tx & s & s' & HL & Ht).
    eexists. exists tree, tx, s, s'. split; [exact Hrun|]. split; [exact HL|exact Ht].
Defined.

End MoreExamples.
